(** * cloudshell-L1-test-switch: the port-mapping store and its operations

    A shallow embedding of [test_switch/driver_commands.py].

    - The mapping dictionary (a Python [dict] from port address to port
      address, loaded from and dumped to a YAML file) is a
      [gmap string string].
    - The body of every [with MappingTransManager(...) as mappings:] block
      mutates that dictionary in place and may raise; it is a computation in
      a state-and-error monad [Body] whose state survives a raise, because
      [__exit__] dumps the very object the body was mutating.
    - The mapping file and its lock are a [world], threaded through
      [__enter__] and [__exit__].
    - [_delay] only sleeps, before the transaction opens; it reads and
      writes neither the dictionary nor the file and is left out. The
      configuration is taken to satisfy [0 <= DELAY_MIN <= DELAY_MAX], so
      that [randint] and [sleep] return.
    - [dict.items()] enumerates the entries in an order the embedding does
      not fix: [map_clear] takes it as a [dict_order].
    - Stored values are taken to be strings, as the driver itself writes
      them. *)

From Stdlib Require Import Ascii String.
From stdpp Require Import gmap strings list fin_maps.

Local Open Scope string_scope.

(** ** Strings: [str.lower] and the [in] operator *)

Module Str.

(** [str.lower] on the ASCII range, on the UTF-8 bytes of the text. The
    bytes of a non-ASCII character are all above 127, and the only non-ASCII
    characters that [str.lower] turns into an ASCII letter give [k] and [i],
    which do not occur in the marker; so a search for the marker sees no
    difference. *)
Definition lower_ascii (c : ascii) : ascii :=
  let n := nat_of_ascii c in
  if (65 <=? n)%nat && (n <=? 90)%nat then ascii_of_nat (n + 32) else c.

Fixpoint lower (s : string) : string :=
  match s with
  | EmptyString => EmptyString
  | String c t => String (lower_ascii c) (lower t)
  end.

(** [needle in hay] *)
Fixpoint contains (needle hay : string) : bool :=
  String.prefix needle hay ||
  match hay with
  | EmptyString => false
  | String _ t => contains needle t
  end.

(** Python truthiness of a [str]. *)
Definition nonempty (s : string) : bool :=
  match s with EmptyString => false | String _ _ => true end.

End Str.

(** ** Errors *)

(** Both raise sites of the engine raise a bare [Exception]; the constructor
    records which site raised and with which arguments, [message] is the text
    the exception carries. The remaining constructors are the errors of the
    lock, the file and the YAML parser. *)
Inductive error :=
  | PortException (data : string)
  | MappingConflict (act_src dst : string)
  | LockFailed
  | NotLocked
  | IOError
  | YAMLError.

Definition message (e : error) : string :=
  match e with
  | PortException data => data
  | MappingConflict act_src dst =>
      "DST port already used in " +:+ act_src +:+ "->" +:+ dst +:+
      ", override mapping is not allowed."
  | LockFailed => "LockFailed"
  | NotLocked => "NotLocked"
  | IOError => "IOError"
  | YAMLError => "YAMLError"
  end.

Definition is_port_exception (e : error) : bool :=
  match e with PortException _ => true | _ => false end.

Definition is_mapping_conflict (e : error) : bool :=
  match e with MappingConflict _ _ => true | _ => false end.

(** ** The dictionary and the monad of transaction bodies *)

Abbreviation mappings := (gmap string string).

(** A computation over the dictionary: the result is an error or a value, and
    the dictionary as the computation left it in either case. *)
Definition Body (A : Type) : Type := mappings → (error + A) * mappings.

Definition ret {A} (a : A) : Body A := λ m, (inr a, m).

Definition raise {A} (e : error) : Body A := λ m, (inl e, m).

Definition bind {A B} (c : Body A) (k : A → Body B) : Body B :=
  λ m, match c m with
       | (inl e, m') => (inl e, m')
       | (inr a, m') => k a m'
       end.

Notation "x <~ c ;; k" := (bind c (λ x, k))
  (at level 100, c at next level, right associativity).
Notation "c ;;; k" := (bind c (λ _, k))
  (at level 100, right associativity).

(** [mappings.get(k)] *)
Definition dict_get (k : string) : Body (option string) :=
  λ m, (inr (m !! k), m).

(** [mappings[k] = v] *)
Definition dict_set (k v : string) : Body unit :=
  λ m, (inr tt, <[k:=v]> m).

(** [mappings.pop(k, None)] *)
Definition dict_pop (k : string) : Body unit :=
  λ m, (inr tt, delete k m).

(** [for x in l: f(x)]; the first raise leaves the loop. *)
Fixpoint for_each {A} (l : list A) (f : A → Body unit) : Body unit :=
  match l with
  | [] => ret tt
  | x :: l' => f x ;;; for_each l' f
  end.

(** The order in which [dict.items()] enumerates the entries: some
    enumeration of them, fixed by the interpreter and by the order of the
    file, and otherwise unknown. *)
Record dict_order := DictOrder {
  items : mappings → list (string * string);
  items_perm : ∀ m, items m ≡ₚ map_to_list m
}.

Definition default_order : dict_order :=
  {| items := map_to_list; items_perm := λ m, reflexivity _ |}.

(** ** Configuration *)

Record config := Config {
  delay_min : Z;
  delay_max : Z;
  override_mapping : bool
}.

(** ** The engine: private helpers *)

Definition EXCEPTION : string := "except".

(** [data and self.EXCEPTION in data.lower()] *)
Definition marked (data : option string) : bool :=
  match data with
  | None => false
  | Some s => Str.nonempty s && Str.contains EXCEPTION (Str.lower s)
  end.

Definition check_exception (port : string) : Body unit :=
  data <~ dict_get port ;;
  match data with
  | Some s => if marked data then raise (PortException s) else ret tt
  | None => ret tt
  end.

(** The body of the loop of [_del_mappings]. *)
Definition del_step (port : string) : Body unit :=
  check_exception port ;;;
  dict_pop port.

Definition del_mappings (ports : list string) : Body unit :=
  for_each ports del_step.

(** [act_src and act_src != src] *)
Definition conflicting (act_src : option string) (src : string) : bool :=
  match act_src with
  | None => false
  | Some s => Str.nonempty s && negb (bool_decide (s = src))
  end.

Definition check_mapping_exist (cfg : config) (src dst : string) : Body unit :=
  if negb (override_mapping cfg) then
    act_src <~ dict_get dst ;;
    match act_src with
    | Some s => if conflicting act_src src then raise (MappingConflict s dst)
                else ret tt
    | None => ret tt
    end
  else ret tt.

(** ** The engine: transaction bodies *)

Definition map_bidi_body (cfg : config) (src_port dst_port : string) : Body unit :=
  check_exception src_port ;;;
  check_exception dst_port ;;;
  check_mapping_exist cfg src_port dst_port ;;;
  check_mapping_exist cfg dst_port src_port ;;;
  dict_set src_port dst_port ;;;
  dict_set dst_port src_port.

(** The body of the loop of [map_uni]. *)
Definition map_uni_step (cfg : config) (src_port dst_port : string) : Body unit :=
  check_exception dst_port ;;;
  check_mapping_exist cfg src_port dst_port ;;;
  dict_set dst_port src_port.

Definition map_uni_body (cfg : config) (src_port : string)
    (dst_ports : list string) : Body unit :=
  check_exception src_port ;;;
  for_each dst_ports (map_uni_step cfg src_port).

(** [[k for k, v in mappings.items() if v == port or k == port]] *)
Definition touching (ord : dict_order) (m : mappings) (port : string) : list string :=
  (filter (λ kv, kv.2 = port ∨ kv.1 = port) (items ord m)).*1.

(** The collecting loop of [map_clear]; the dictionary is not mutated while
    it runs, so every comprehension enumerates the dictionary as loaded. *)
Definition collect_ports (ord : dict_order) (ports : list string) : Body (list string) :=
  λ m, (inr (flat_map (touching ord m) ports), m).

Definition map_clear_body (ord : dict_order) (ports : list string) : Body unit :=
  act_ports <~ collect_ports ord ports ;;
  del_mappings act_ports.

(** The scanning loop of [map_clear_to]. *)
Definition scan_ports (src_port : string) (dst_ports : list string) : Body (list string) :=
  λ m, (inr (filter (λ dst_port, m !! dst_port = Some src_port) dst_ports), m).

Definition map_clear_to_body (src_port : string) (dst_ports : list string) : Body unit :=
  check_exception src_port ;;;
  act_ports <~ scan_ports src_port dst_ports ;;
  del_mappings act_ports.

(** ** The mapping file, its lock and the transaction manager *)

(** What the mapping file holds, as far as [open] and [yaml.load] tell apart:
    no file, an empty file (loads as [None]), text that does not parse, or a
    YAML mapping. *)
Inductive file_content :=
  | NoFile
  | EmptyFile
  | Malformed
  | YamlDoc (m : mappings).

Inductive io_event :=
  | EvRead
  | EvWrite (m : mappings).

(** [lock_usable]: whether [LockFile.acquire] returns (it raises otherwise).
    [trace]: the reads and writes of the mapping file so far, latest first. *)
Record world := World {
  file : file_content;
  lock_usable : bool;
  trace : list io_event
}.

Definition log (ev : io_event) (w : world) : world :=
  {| file := file w; lock_usable := lock_usable w; trace := ev :: trace w |}.

Definition write_file (m : mappings) (w : world) : world :=
  {| file := YamlDoc m; lock_usable := lock_usable w;
     trace := EvWrite m :: trace w |}.

Definition with_file (f : file_content) (w : world) : world :=
  {| file := f; lock_usable := lock_usable w; trace := trace w |}.

(** The fields of a [MappingTransManager]: [_mappings] ([None] until loaded)
    and whether its [_lock_file] is held. *)
Record manager := Manager {
  mgr_mappings : option mappings;
  mgr_locked : bool
}.

(** [self._lock_file.acquire()] *)
Definition acquire (w : world) : (error + unit) * world :=
  if lock_usable w then (inr tt, w) else (inl LockFailed, w).

(** [open(self._mappings_file, "r")] and [yaml.load(fd.read(), ...)] *)
Definition read_mappings (w : world) : (error + option mappings) * world :=
  match file w with
  | NoFile => (inl IOError, w)
  | EmptyFile => (inr None, log EvRead w)
  | Malformed => (inl YAMLError, log EvRead w)
  | YamlDoc m => (inr (Some m), log EvRead w)
  end.

(** [self._mappings or {}] *)
Definition or_empty (v : option mappings) : mappings :=
  match v with
  | Some m => if decide (m = ∅) then ∅ else m
  | None => ∅
  end.

(** The [try] block of [__enter__]. *)
Definition enter_try (w : world) : (error + unit) * manager * world :=
  match acquire w with
  | (inl e, w1) => (inl e, Manager None false, w1)
  | (inr _, w1) =>
      match read_mappings w1 with
      | (inl e, w2) => (inl e, Manager None true, w2)
      | (inr v, w2) => (inr tt, Manager v true, w2)
      end
  end.

(** [__enter__]: the [finally] clause ends in [return], which drops whatever
    the [try] block raised. *)
Definition enter (w : world) : (error + mappings) * manager * world :=
  let '(_, mgr, w1) := enter_try w in
  let m := or_empty (mgr_mappings mgr) in
  (inr m, Manager (Some m) (mgr_locked mgr), w1).

(** [self._lock_file.release()]: raises [NotLocked] when the lock is not
    held. *)
Definition release (mgr : manager) (w : world) : (error + unit) * world :=
  if mgr_locked mgr then (inr tt, w) else (inl NotLocked, w).

(** [__exit__]: dump [self._mappings], write the file, release the lock; the
    exception passed in is not looked at. [m] is the dictionary
    [self._mappings] refers to, as the body left it. *)
Definition exit_ (mgr : manager) (m : mappings) (w : world) : (error + unit) * world :=
  release mgr (write_file m w).

(** [with self.MappingTransManager(self._mapping_file) as mappings: body].
    [__exit__] returns [None], so an exception of the body is raised again
    after it, unless [__exit__] itself raises. *)
Definition transaction (body : Body unit) (w : world) : (error + unit) * world :=
  match enter w with
  | (inl e, _, w1) => (inl e, w1)
  | (inr m, mgr, w1) =>
      let '(r, m') := body m in
      let '(rx, w2) := exit_ mgr m' w1 in
      (match rx with inl e => inl e | inr _ => r end, w2)
  end.

(** The Mapping Set the file denotes: what a transaction that holds the lock
    starts from. *)
Definition file_mappings (f : file_content) : mappings :=
  match f with
  | YamlDoc m => or_empty (Some m)
  | _ => or_empty None
  end.

Definition stored (w : world) : mappings := file_mappings (file w).

(** ** The engine: public operations *)

Definition map_bidi (cfg : config) (src_port dst_port : string) :=
  transaction (map_bidi_body cfg src_port dst_port).

Definition map_uni (cfg : config) (src_port : string) (dst_ports : list string) :=
  transaction (map_uni_body cfg src_port dst_ports).

Definition map_clear (ord : dict_order) (cfg : config) (ports : list string) :=
  transaction (map_clear_body ord ports).

Definition map_clear_to (cfg : config) (src_port : string) (dst_ports : list string) :=
  transaction (map_clear_to_body src_port dst_ports).

Definition map_tap (cfg : config) (src_port : string) (dst_ports : list string) :=
  map_uni cfg src_port dst_ports.

(** ** What the loops leave behind when nothing raises *)

(** [for d in dsts: mappings[d] = src] *)
Definition set_all (src : string) (dsts : list string) (m : mappings) : mappings :=
  foldl (λ acc d, <[d:=src]> acc) m dsts.

(** [for k in ks: mappings.pop(k, None)] *)
Definition delete_all (ks : list string) (m : mappings) : mappings :=
  foldl (λ acc k, delete k acc) m ks.

(** The substring relation [needle in hay] stands for. *)
Definition substring_of (needle hay : string) : Prop :=
  ∃ pre post, hay = pre +:+ needle +:+ post.

(** ** Sample configurations and stores *)

(** The defaults of the driver: no delay, override allowed. *)
Definition cfg_default : config := Config 0 0 true.

Definition cfg_strict : config := Config 0 0 false.

(** A mapping file holding [m], with a usable lock and nothing done yet. *)
Definition on_disk (m : mappings) : world := World (YamlDoc m) true [].

(** The pre-seeded store of the exception-marker scenario. *)
Definition seeded : mappings := {[ "P1" := "except: fiber fault" ]}.

(** ** [get_resource_description] *)

(** A [with] block whose body hands a value on: [transaction] at any result
    type. *)
Definition transaction_with {A} (body : Body A) (w : world) : (error + A) * world :=
  match enter w with
  | (inl e, _, w1) => (inl e, w1)
  | (inr m, mgr, w1) =>
      let '(r, m') := body m in
      let '(rx, w2) := exit_ mgr m' w1 in
      (match rx with inl e => inl e | inr _ => r end, w2)
  end.

(** The [Port] object made by [Port(port_id)] and put under the blade
    [blade]. *)
Record port_ref := PortRef {
  port_blade : string;
  port_id : nat
}.

(** [range(1, 11)] *)
Definition port_ids : list nat := seq 1 10.

(** One of the two loops that fill [ports]: [ports[port.address] = port] for
    the ten ports of a blade. The [address] property of a port belongs to the
    resource classes of the framework and is taken as [port_address]: the
    address of the chassis, the blade and the port id give the address. *)
Definition add_ports (port_address : string → string → nat → string)
    (address blade : string) (ports : gmap string port_ref) : gmap string port_ref :=
  foldl (λ acc i, <[port_address address blade i := PortRef blade i]> acc) ports port_ids.

Definition build_ports (port_address : string → string → nat → string)
    (address : string) : gmap string port_ref :=
  add_ports port_address address "2" (add_ports port_address address "1" ∅).

(** One turn of the loop over [mappings.items()]: the call
    [dst_port.add_mapping(src_port)] it makes, if any. A [Port] object is
    taken to be truthy. *)
Definition connect_entry (ports : gmap string port_ref) (kv : string * string)
    : option (port_ref * port_ref) :=
  match ports !! kv.2, ports !! kv.1 with
  | Some src_port, Some dst_port => Some (dst_port, src_port)
  | _, _ => None
  end.

(** The body of the [with] block: the calls of [add_mapping], as pairs
    (destination port, source port) in the order they are made. *)
Definition description_body (ord : dict_order) (ports : gmap string port_ref)
    : Body (list (port_ref * port_ref)) :=
  λ m, (inr (omap (connect_entry ports) (items ord m)), m).

(** [get_resource_description]; no [_delay] here. The result stands for the
    chassis returned: its tree is fixed, the connections are what varies. *)
Definition get_resource_description (ord : dict_order)
    (port_address : string → string → nat → string) (address : string) :=
  transaction_with (description_body ord (build_ports port_address address)).

(** ** [login]: the name of the mapping file *)

(** [s.replace(old, new)] for one-character [old] and [new]. *)
Fixpoint replace_char (old new : ascii) (s : string) : string :=
  match s with
  | EmptyString => EmptyString
  | String c t =>
      String (if Ascii.eqb c old then new else c) (replace_char old new t)
  end.

(** [c in s] for a one-character [c]. *)
Fixpoint has_char (c : ascii) (s : string) : bool :=
  match s with
  | EmptyString => false
  | String c' t => Ascii.eqb c' c || has_char c t
  end.

(** [MAPPINGS_FILE_TEMPLATE.format(x)] *)
Definition MAPPINGS_FILE_TEMPLATE (x : string) : string := x +:+ "-mappings.yaml".

(** The last argument [login] gives to [os.path.join]: the file name under
    the parent of the driver's directory. *)
Definition mapping_file_name (address : string) : string :=
  MAPPINGS_FILE_TEMPLATE (replace_char "." "-" address).

(** ** [entities.TestPort] *)

(** [NumericAttribute(name, value)] *)
Inductive attribute :=
  | NumericAttribute (name value : string).

(** The one field of a port the setters of [TestPort] touch. *)
Record test_port := TestPort {
  attributes : list attribute
}.

(** [if value: self.attributes.append(NumericAttribute(name, value))], for a
    [value] that is [None] or a [str]. *)
Definition append_attribute (name : string) (value : option string) (p : test_port)
    : test_port :=
  match value with
  | Some v => if Str.nonempty v
              then TestPort (attributes p ++ [NumericAttribute name v])
              else p
  | None => p
  end.

Definition set_protocol := append_attribute "Protocol".

Definition set_protocol_type := append_attribute "Protocol Type".

Definition set_speed := append_attribute "Speed".

(** A call of one of the three setters. *)
Inductive setter_call :=
  | SetProtocol (value : option string)
  | SetProtocolType (value : option string)
  | SetSpeed (value : option string).

Definition run_setter (p : test_port) (c : setter_call) : test_port :=
  match c with
  | SetProtocol v => set_protocol v p
  | SetProtocolType v => set_protocol_type v p
  | SetSpeed v => set_speed v p
  end.

(** The value a call passes, and whether it is truthy. *)
Definition call_value (c : setter_call) : option string :=
  match c with
  | SetProtocol v | SetProtocolType v | SetSpeed v => v
  end.

Definition effective (c : setter_call) : bool :=
  match call_value c with
  | Some v => Str.nonempty v
  | None => false
  end.

(** * Properties *)

(** ** Strings *)

Lemma append_cons (c : ascii) (s t : string) :
  String c s +:+ t = String c (s +:+ t).
Proof. reflexivity. Qed.

Lemma append_nil (t : string) : "" +:+ t = t.
Proof. reflexivity. Qed.

Lemma prefix_app (n h : string) :
  String.prefix n h = true ↔ ∃ post, h = n +:+ post.
Proof.
  revert h. induction n as [|a n IH]; intros h; simpl.
  - destruct h; split; eauto.
  - destruct h as [|b h]; simpl.
    + split; [discriminate | intros [post H]; discriminate].
    + setoid_rewrite append_cons. destruct (Ascii.ascii_dec a b) as [->|Hne].
      * rewrite IH. split; intros [post H]; exists post; congruence.
      * split; [discriminate | intros [post H]; congruence].
Qed.

Lemma contains_nil (n : string) : Str.contains n "" = String.prefix n "" || false.
Proof. reflexivity. Qed.

Lemma contains_cons (n : string) (c : ascii) (h : string) :
  Str.contains n (String c h) = String.prefix n (String c h) || Str.contains n h.
Proof. reflexivity. Qed.

Lemma contains_substring (n h : string) :
  Str.contains n h = true ↔ substring_of n h.
Proof.
  unfold substring_of. induction h as [|c h IH].
  - rewrite contains_nil, orb_false_r, prefix_app. split.
    + intros [post H]. exists "", post. exact H.
    + intros (pre & post & H). destruct pre.
      * rewrite append_nil in H. eauto.
      * rewrite append_cons in H. discriminate.
  - rewrite contains_cons, orb_true_iff, prefix_app, IH. split.
    + intros [[post H] | (pre & post & H)].
      * exists "", post. exact H.
      * exists (String c pre), post. rewrite append_cons. congruence.
    + intros (pre & post & H). destruct pre as [|c' pre].
      * left. rewrite append_nil in H. eauto.
      * right. rewrite append_cons in H. exists pre, post. congruence.
Qed.

Lemma nonempty_ne (s : string) : Str.nonempty s = true ↔ s ≠ "".
Proof. destruct s; simpl; split; congruence. Qed.

Lemma marked_Some (s : string) :
  marked (Some s) = true ↔ s ≠ "" ∧ substring_of EXCEPTION (Str.lower s).
Proof.
  unfold marked. rewrite andb_true_iff, nonempty_ne, contains_substring. tauto.
Qed.

(** ** The helpers of the engine *)

Lemma check_exception_pass (p : string) (m : mappings) :
  marked (m !! p) = false → check_exception p m = (inr tt, m).
Proof.
  intros H. unfold check_exception, bind, dict_get.
  destruct (m !! p) as [s|]; [rewrite H|]; reflexivity.
Qed.

Lemma check_exception_raise (p s : string) (m : mappings) :
  m !! p = Some s → marked (Some s) = true →
  check_exception p m = (inl (PortException s), m).
Proof.
  intros Hp H. unfold check_exception, bind, dict_get.
  rewrite Hp, H. reflexivity.
Qed.

(** The two outcomes of [_check_exception], decided by [marked]. *)
Lemma check_exception_cases (p : string) (m : mappings) :
  (marked (m !! p) = false ∧ check_exception p m = (inr tt, m)) ∨
  (∃ s, m !! p = Some s ∧ marked (Some s) = true ∧
        check_exception p m = (inl (PortException s), m)).
Proof.
  destruct (marked (m !! p)) eqn:H.
  - right. destruct (m !! p) as [s|] eqn:Hp; [|discriminate].
    exists s. eauto using check_exception_raise.
  - left. eauto using check_exception_pass.
Qed.

Lemma check_mapping_exist_override (cfg : config) (src dst : string) (m : mappings) :
  override_mapping cfg = true → check_mapping_exist cfg src dst m = (inr tt, m).
Proof. intros H. unfold check_mapping_exist. rewrite H. reflexivity. Qed.

Lemma check_mapping_exist_pass (cfg : config) (src dst : string) (m : mappings) :
  conflicting (m !! dst) src = false → check_mapping_exist cfg src dst m = (inr tt, m).
Proof.
  intros H. unfold check_mapping_exist, bind, dict_get.
  destruct (override_mapping cfg); simpl; [reflexivity|].
  destruct (m !! dst) as [s|]; [rewrite H|]; reflexivity.
Qed.

Lemma check_mapping_exist_raise (cfg : config) (src dst s : string) (m : mappings) :
  override_mapping cfg = false → m !! dst = Some s → conflicting (Some s) src = true →
  check_mapping_exist cfg src dst m = (inl (MappingConflict s dst), m).
Proof.
  intros Ho Hd H. unfold check_mapping_exist. rewrite Ho. simpl.
  unfold bind, dict_get. rewrite Hd, H. reflexivity.
Qed.

Lemma check_mapping_exist_cases (cfg : config) (src dst : string) (m : mappings) :
  check_mapping_exist cfg src dst m = (inr tt, m) ∨
  (∃ s, override_mapping cfg = false ∧ m !! dst = Some s ∧
        conflicting (Some s) src = true ∧
        check_mapping_exist cfg src dst m = (inl (MappingConflict s dst), m)).
Proof.
  destruct (override_mapping cfg) eqn:Ho.
  - left. by apply check_mapping_exist_override.
  - destruct (conflicting (m !! dst) src) eqn:H.
    + right. destruct (m !! dst) as [s|] eqn:Hd; [|discriminate].
      exists s. eauto using check_mapping_exist_raise.
    + left. by apply check_mapping_exist_pass.
Qed.

Lemma conflicting_same (s : string) : conflicting (Some s) s = false.
Proof.
  unfold conflicting. rewrite bool_decide_eq_true_2 by done.
  apply andb_false_r.
Qed.

Lemma conflicting_other (s src : string) :
  s ≠ "" → s ≠ src → conflicting (Some s) src = true.
Proof.
  intros Hs Hne. unfold conflicting.
  rewrite bool_decide_eq_false_2 by done.
  apply nonempty_ne in Hs. rewrite Hs. reflexivity.
Qed.

(** ** The monad *)

Lemma bind_ok {A B} (c : Body A) (k : A → Body B) (m m' : mappings) (a : A) :
  c m = (inr a, m') → bind c k m = k a m'.
Proof. intros H. unfold bind. rewrite H. reflexivity. Qed.

Lemma bind_err {A B} (c : Body A) (k : A → Body B) (m m' : mappings) (e : error) :
  c m = (inl e, m') → bind c k m = (inl e, m').
Proof. intros H. unfold bind. rewrite H. reflexivity. Qed.

Lemma for_each_cons {A} (x : A) (l : list A) (f : A → Body unit) :
  for_each (x :: l) f = (f x ;;; for_each l f).
Proof. reflexivity. Qed.

(** ** [map_bidi]: the body *)

Lemma bidi_src_marked (cfg : config) (s d v : string) (m : mappings) :
  m !! s = Some v → marked (Some v) = true →
  map_bidi_body cfg s d m = (inl (PortException v), m).
Proof.
  intros Hs Hv. unfold map_bidi_body.
  apply bind_err. by apply check_exception_raise.
Qed.

Lemma bidi_dst_marked (cfg : config) (s d v : string) (m : mappings) :
  marked (m !! s) = false → m !! d = Some v → marked (Some v) = true →
  map_bidi_body cfg s d m = (inl (PortException v), m).
Proof.
  intros Hs Hd Hv. unfold map_bidi_body.
  erewrite bind_ok by (by apply check_exception_pass).
  apply bind_err. by apply check_exception_raise.
Qed.

Lemma bidi_conflict (cfg : config) (s d a : string) (m : mappings) :
  marked (m !! s) = false → marked (m !! d) = false →
  override_mapping cfg = false → m !! d = Some a → conflicting (Some a) s = true →
  map_bidi_body cfg s d m = (inl (MappingConflict a d), m).
Proof.
  intros Hs Hd Ho Ha Hc. unfold map_bidi_body.
  erewrite bind_ok by (by apply check_exception_pass).
  erewrite bind_ok by (by apply check_exception_pass).
  apply bind_err. by apply check_mapping_exist_raise.
Qed.

Lemma bidi_ok (cfg : config) (s d : string) (m : mappings) :
  marked (m !! s) = false → marked (m !! d) = false →
  override_mapping cfg = true ∨
    (conflicting (m !! d) s = false ∧ conflicting (m !! s) d = false) →
  map_bidi_body cfg s d m = (inr tt, <[d:=s]> (<[s:=d]> m)).
Proof.
  intros Hs Hd Hc. unfold map_bidi_body.
  erewrite bind_ok by (by apply check_exception_pass).
  erewrite bind_ok by (by apply check_exception_pass).
  erewrite bind_ok; cycle 1.
  { destruct Hc as [Ho|[H1 H2]];
      [by apply check_mapping_exist_override | by apply check_mapping_exist_pass]. }
  erewrite bind_ok; cycle 1.
  { destruct Hc as [Ho|[H1 H2]];
      [by apply check_mapping_exist_override | by apply check_mapping_exist_pass]. }
  reflexivity.
Qed.

(** Every run of the body either raises before the first assignment or
    makes both assignments. *)
Lemma bidi_cases (cfg : config) (s d : string) (m : mappings) :
  (map_bidi_body cfg s d m = (inr tt, <[d:=s]> (<[s:=d]> m)) ∧
   marked (m !! s) = false ∧ marked (m !! d) = false) ∨
  (∃ e, map_bidi_body cfg s d m = (inl e, m)).
Proof.
  unfold map_bidi_body.
  destruct (check_exception_cases s m) as [[Hs E]|(v & _ & _ & E)];
    [erewrite bind_ok by exact E | right; eexists; apply bind_err, E].
  destruct (check_exception_cases d m) as [[Hd E']|(v & _ & _ & E')];
    [erewrite bind_ok by exact E' | right; eexists; apply bind_err, E'].
  destruct (check_mapping_exist_cases cfg s d m) as [E1|(a & _ & _ & _ & E1)];
    [erewrite bind_ok by exact E1 | right; eexists; apply bind_err, E1].
  destruct (check_mapping_exist_cases cfg d s m) as [E2|(a & _ & _ & _ & E2)];
    [erewrite bind_ok by exact E2 | right; eexists; apply bind_err, E2].
  left. done.
Qed.

Lemma insert_pair_again (s d : string) (m : mappings) :
  let m' := <[d:=s]> (<[s:=d]> m) in <[d:=s]> (<[s:=d]> m') = m'.
Proof.
  intros m'. assert (Hd : m' !! d = Some s) by apply lookup_insert_eq.
  assert (Hs : m' !! s = Some d).
  { unfold m'. destruct (decide (d = s)) as [->|Hne].
    - apply lookup_insert_eq.
    - rewrite lookup_insert_ne by done. apply lookup_insert_eq. }
  rewrite (insert_id m' s d Hs). by apply insert_id.
Qed.

(** ** [map_uni]: the loop *)

Lemma uni_step_cases (cfg : config) (src d : string) (m : mappings) :
  (map_uni_step cfg src d m = (inr tt, <[d:=src]> m) ∧ marked (m !! d) = false) ∨
  (∃ e, map_uni_step cfg src d m = (inl e, m)).
Proof.
  unfold map_uni_step.
  destruct (check_exception_cases d m) as [[Hd E]|(v & _ & _ & E)];
    [erewrite bind_ok by exact E | right; eexists; apply bind_err, E].
  destruct (check_mapping_exist_cases cfg src d m) as [E1|(a & _ & _ & _ & E1)];
    [erewrite bind_ok by exact E1 | right; eexists; apply bind_err, E1].
  left. done.
Qed.

Lemma uni_step_marked (cfg : config) (src d v : string) (m : mappings) :
  m !! d = Some v → marked (Some v) = true →
  map_uni_step cfg src d m = (inl (PortException v), m).
Proof.
  intros Hd Hv. unfold map_uni_step. apply bind_err.
  by apply check_exception_raise.
Qed.

Lemma uni_step_conflict (cfg : config) (src d a : string) (m : mappings) :
  override_mapping cfg = false → m !! d = Some a → marked (Some a) = false →
  conflicting (Some a) src = true →
  map_uni_step cfg src d m = (inl (MappingConflict a d), m).
Proof.
  intros Ho Hd Ha Hc. unfold map_uni_step.
  erewrite bind_ok by (apply check_exception_pass; by rewrite Hd).
  apply bind_err. by apply check_mapping_exist_raise.
Qed.

Lemma uni_step_ok (cfg : config) (src d : string) (m : mappings) :
  marked (m !! d) = false →
  override_mapping cfg = true ∨ conflicting (m !! d) src = false →
  map_uni_step cfg src d m = (inr tt, <[d:=src]> m).
Proof.
  intros Hd Hc. unfold map_uni_step.
  erewrite bind_ok by (by apply check_exception_pass).
  erewrite bind_ok; [reflexivity|].
  destruct Hc; [by apply check_mapping_exist_override | by apply check_mapping_exist_pass].
Qed.

(** An entry whose value carries the marker is never rewritten by the loop. *)
Lemma uni_loop_keeps_marked (cfg : config) (src k v : string) (dsts : list string) :
  ∀ m, m !! k = Some v → marked (Some v) = true →
       (for_each dsts (map_uni_step cfg src) m).2 !! k = Some v.
Proof.
  induction dsts as [|d dsts IH]; intros m Hk Hv; [exact Hk|].
  rewrite for_each_cons.
  destruct (uni_step_cases cfg src d m) as [[E Hd]|[e E]].
  - erewrite bind_ok by exact E. apply IH; [|done].
    rewrite lookup_insert_ne; [done|]. intros ->. rewrite Hk in Hd. congruence.
  - erewrite bind_err by exact E. exact Hk.
Qed.

(** A destination whose value carries the marker makes the loop raise. *)
Lemma uni_loop_marked_fails (cfg : config) (src k v : string) (dsts : list string) :
  ∀ m, k ∈ dsts → m !! k = Some v → marked (Some v) = true →
       ∃ e, (for_each dsts (map_uni_step cfg src) m).1 = inl e.
Proof.
  induction dsts as [|d dsts IH]; intros m Hin Hk Hv; [by apply elem_of_nil in Hin|].
  rewrite for_each_cons.
  destruct (uni_step_cases cfg src d m) as [[E Hd]|[e E]].
  - erewrite bind_ok by exact E.
    assert (d ≠ k) by (intros ->; rewrite Hk in Hd; congruence).
    apply IH; [|by rewrite lookup_insert_ne|done].
    apply elem_of_cons in Hin as [->|]; done.
  - erewrite bind_err by exact E. eauto.
Qed.

(** With override off, a destination held by another source makes the loop
    raise, and its entry stays. *)
Lemma uni_loop_conflict_keeps (cfg : config) (src dst s1 : string) (dsts : list string) :
  override_mapping cfg = false → marked (Some s1) = false →
  conflicting (Some s1) src = true →
  ∀ m, dst ∈ dsts → m !! dst = Some s1 →
       (∃ e, (for_each dsts (map_uni_step cfg src) m).1 = inl e) ∧
       (for_each dsts (map_uni_step cfg src) m).2 !! dst = Some s1.
Proof.
  intros Ho Hm Hc. induction dsts as [|d dsts IH]; intros m Hin Hd;
    [by apply elem_of_nil in Hin|].
  rewrite for_each_cons. destruct (decide (d = dst)) as [->|Hne].
  - erewrite bind_err by (by eapply uni_step_conflict). eauto.
  - destruct (uni_step_cases cfg src d m) as [[E _]|[e E]].
    + erewrite bind_ok by exact E. apply IH.
      * apply elem_of_cons in Hin as [->|]; done.
      * by rewrite lookup_insert_ne.
    + erewrite bind_err by exact E. eauto.
Qed.

Lemma set_all_cons (src d : string) (dsts : list string) (m : mappings) :
  set_all src (d :: dsts) m = set_all src dsts (<[d:=src]> m).
Proof. reflexivity. Qed.

Lemma lookup_set_all (src k : string) (dsts : list string) :
  ∀ m, set_all src dsts m !! k = if decide (k ∈ dsts) then Some src else m !! k.
Proof.
  induction dsts as [|d dsts IH]; intros m.
  - rewrite decide_False by apply not_elem_of_nil. reflexivity.
  - rewrite set_all_cons, IH. destruct (decide (k ∈ dsts)) as [Hin|Hnin].
    + rewrite decide_True by (by apply list_elem_of_further). reflexivity.
    + destruct (decide (k = d)) as [->|Hne].
      * rewrite decide_True by apply list_elem_of_here. apply lookup_insert_eq.
      * rewrite decide_False by (rewrite elem_of_cons; tauto).
        by rewrite lookup_insert_ne.
Qed.

(** The loop runs to its end when no destination carries the marker, the
    text of the source does not either (or no destination is listed twice),
    and nothing conflicts. *)
Lemma uni_loop_ok (cfg : config) (src : string) (dsts : list string) :
  marked (Some src) = false ∨ NoDup dsts →
  ∀ m, (∀ d, d ∈ dsts → marked (m !! d) = false) →
       override_mapping cfg = true ∨ (∀ d, d ∈ dsts → conflicting (m !! d) src = false) →
       for_each dsts (map_uni_step cfg src) m = (inr tt, set_all src dsts m).
Proof.
  intros Hsrc. induction dsts as [|d dsts IH]; intros m Hm Hc; [reflexivity|].
  rewrite for_each_cons, set_all_cons.
  erewrite bind_ok; cycle 1.
  { apply uni_step_ok; [apply Hm, list_elem_of_here|].
    destruct Hc as [Ho|Hc]; [by left | right; apply Hc, list_elem_of_here]. }
  apply IH.
  - destruct Hsrc as [Hs|Hnd]; [by left | right; by apply NoDup_cons in Hnd as [_ ?]].
  - intros d' Hd'. destruct (decide (d' = d)) as [->|Hne].
    + rewrite lookup_insert_eq. destruct Hsrc as [Hs|Hnd]; [done|].
      by apply NoDup_cons in Hnd as [? _].
    + rewrite lookup_insert_ne by done. by apply Hm, list_elem_of_further.
  - destruct Hc as [Ho|Hc]; [by left | right].
    intros d' Hd'. destruct (decide (d' = d)) as [->|Hne].
    + rewrite lookup_insert_eq. apply conflicting_same.
    + rewrite lookup_insert_ne by done. by apply Hc, list_elem_of_further.
Qed.

(** ** [_del_mappings] *)

Lemma del_step_cases (p : string) (m : mappings) :
  (marked (m !! p) = false ∧ del_step p m = (inr tt, delete p m)) ∨
  (∃ s, m !! p = Some s ∧ marked (Some s) = true ∧
        del_step p m = (inl (PortException s), m)).
Proof.
  unfold del_step.
  destruct (check_exception_cases p m) as [[Hp E]|(s & Hp & Hs & E)].
  - left. split; [done|]. erewrite bind_ok by exact E. reflexivity.
  - right. exists s. split_and!; [done..|]. by apply bind_err.
Qed.

Lemma del_head_marked (k v : string) (ks : list string) (m : mappings) :
  m !! k = Some v → marked (Some v) = true →
  del_mappings (k :: ks) m = (inl (PortException v), m).
Proof.
  intros Hk Hv. unfold del_mappings. rewrite for_each_cons.
  apply bind_err. unfold del_step. apply bind_err.
  by apply check_exception_raise.
Qed.

(** An entry whose value carries the marker is never removed. *)
Lemma del_keeps_marked (k v : string) (ks : list string) :
  ∀ m, m !! k = Some v → marked (Some v) = true →
       (del_mappings ks m).2 !! k = Some v.
Proof.
  unfold del_mappings.
  induction ks as [|p ks IH]; intros m Hk Hv; [exact Hk|].
  rewrite for_each_cons.
  destruct (del_step_cases p m) as [[Hp E]|(s & _ & _ & E)].
  - erewrite bind_ok by exact E. apply IH; [|done].
    rewrite lookup_delete_ne; [done|]. intros ->. rewrite Hk in Hp. congruence.
  - erewrite bind_err by exact E. exact Hk.
Qed.

(** Reaching a key whose value carries the marker raises, and the only
    error [_del_mappings] raises is the one of [_check_exception]. *)
Lemma del_marked_fails (k v : string) (ks : list string) :
  ∀ m, k ∈ ks → m !! k = Some v → marked (Some v) = true →
       ∃ s, (del_mappings ks m).1 = inl (PortException s) ∧ marked (Some s) = true.
Proof.
  unfold del_mappings.
  induction ks as [|p ks IH]; intros m Hin Hk Hv; [by apply elem_of_nil in Hin|].
  rewrite for_each_cons.
  destruct (del_step_cases p m) as [[Hp E]|(s & _ & Hs & E)].
  - erewrite bind_ok by exact E.
    assert (p ≠ k) by (intros ->; rewrite Hk in Hp; congruence).
    apply IH; [|by rewrite lookup_delete_ne|done].
    apply elem_of_cons in Hin as [->|]; done.
  - erewrite bind_err by exact E. eauto.
Qed.

Lemma delete_all_cons (k : string) (ks : list string) (m : mappings) :
  delete_all (k :: ks) m = delete_all ks (delete k m).
Proof. reflexivity. Qed.

Lemma lookup_delete_all (k : string) (ks : list string) :
  ∀ m, delete_all ks m !! k = if decide (k ∈ ks) then None else m !! k.
Proof.
  induction ks as [|p ks IH]; intros m.
  - rewrite decide_False by apply not_elem_of_nil. reflexivity.
  - rewrite delete_all_cons, IH. destruct (decide (k ∈ ks)) as [Hin|Hnin].
    + rewrite decide_True by (by apply list_elem_of_further). reflexivity.
    + destruct (decide (k = p)) as [->|Hne].
      * rewrite decide_True by apply list_elem_of_here. apply lookup_delete_eq.
      * rewrite decide_False by (rewrite elem_of_cons; tauto).
        by rewrite lookup_delete_ne.
Qed.

Lemma del_ok (ks : list string) :
  ∀ m, (∀ k, k ∈ ks → marked (m !! k) = false) →
       del_mappings ks m = (inr tt, delete_all ks m).
Proof.
  unfold del_mappings.
  induction ks as [|p ks IH]; intros m Hm; [reflexivity|].
  rewrite for_each_cons, delete_all_cons.
  destruct (del_step_cases p m) as [[Hp E]|(s & Hp & Hs & _)].
  - erewrite bind_ok by exact E. apply IH. intros k Hk.
    destruct (decide (k = p)) as [->|Hne].
    + by rewrite lookup_delete_eq.
    + rewrite lookup_delete_ne by done. by apply Hm, list_elem_of_further.
  - specialize (Hm p (list_elem_of_here _ _)). rewrite Hp in Hm. congruence.
Qed.

(** When [_del_mappings] returns, every listed key is gone. *)
Lemma del_ok_inv (ks : list string) :
  ∀ m, (del_mappings ks m).1 = inr tt → (del_mappings ks m).2 = delete_all ks m.
Proof.
  unfold del_mappings.
  induction ks as [|p ks IH]; intros m; [reflexivity|].
  rewrite for_each_cons, delete_all_cons.
  destruct (del_step_cases p m) as [[Hp E]|(s & _ & _ & E)].
  - erewrite bind_ok by exact E. apply IH.
  - erewrite bind_err by exact E. discriminate.
Qed.

(** ** [map_uni]: the body *)

Lemma uni_src_marked (cfg : config) (s v : string) (dsts : list string) (m : mappings) :
  m !! s = Some v → marked (Some v) = true →
  map_uni_body cfg s dsts m = (inl (PortException v), m).
Proof.
  intros Hs Hv. unfold map_uni_body. apply bind_err.
  by apply check_exception_raise.
Qed.

Lemma uni_head_marked (cfg : config) (s p v : string) (rest : list string) (m : mappings) :
  marked (m !! s) = false → m !! p = Some v → marked (Some v) = true →
  map_uni_body cfg s (p :: rest) m = (inl (PortException v), m).
Proof.
  intros Hs Hp Hv. unfold map_uni_body.
  erewrite bind_ok by (by apply check_exception_pass).
  rewrite for_each_cons. apply bind_err. by apply uni_step_marked.
Qed.

Lemma uni_keeps_marked (cfg : config) (s k v : string) (dsts : list string) (m : mappings) :
  m !! k = Some v → marked (Some v) = true →
  (map_uni_body cfg s dsts m).2 !! k = Some v.
Proof.
  intros Hk Hv. unfold map_uni_body.
  destruct (check_exception_cases s m) as [[_ E]|(x & _ & _ & E)].
  - erewrite bind_ok by exact E. by apply uni_loop_keeps_marked.
  - erewrite bind_err by exact E. exact Hk.
Qed.

Lemma uni_marked_fails (cfg : config) (s k v : string) (dsts : list string) (m : mappings) :
  k ∈ dsts → m !! k = Some v → marked (Some v) = true →
  ∃ e, (map_uni_body cfg s dsts m).1 = inl e.
Proof.
  intros Hin Hk Hv. unfold map_uni_body.
  destruct (check_exception_cases s m) as [[_ E]|(x & _ & _ & E)].
  - erewrite bind_ok by exact E. by eapply uni_loop_marked_fails.
  - erewrite bind_err by exact E. eauto.
Qed.

Lemma uni_head_conflict (cfg : config) (s d a : string) (rest : list string) (m : mappings) :
  override_mapping cfg = false → marked (m !! s) = false →
  m !! d = Some a → marked (Some a) = false → conflicting (Some a) s = true →
  map_uni_body cfg s (d :: rest) m = (inl (MappingConflict a d), m).
Proof.
  intros Ho Hs Hd Ha Hc. unfold map_uni_body.
  erewrite bind_ok by (by apply check_exception_pass).
  rewrite for_each_cons. apply bind_err. by apply uni_step_conflict.
Qed.

Lemma uni_conflict_keeps (cfg : config) (s d a : string) (dsts : list string) (m : mappings) :
  override_mapping cfg = false → d ∈ dsts →
  m !! d = Some a → marked (Some a) = false → conflicting (Some a) s = true →
  (∃ e, (map_uni_body cfg s dsts m).1 = inl e) ∧
  (map_uni_body cfg s dsts m).2 !! d = Some a.
Proof.
  intros Ho Hin Hd Ha Hc. unfold map_uni_body.
  destruct (check_exception_cases s m) as [[_ E]|(x & _ & _ & E)].
  - erewrite bind_ok by exact E. by eapply uni_loop_conflict_keeps.
  - erewrite bind_err by exact E. eauto.
Qed.

Lemma uni_ok (cfg : config) (s : string) (dsts : list string) (m : mappings) :
  marked (m !! s) = false →
  marked (Some s) = false ∨ NoDup dsts →
  (∀ d, d ∈ dsts → marked (m !! d) = false) →
  override_mapping cfg = true ∨ (∀ d, d ∈ dsts → conflicting (m !! d) s = false) →
  map_uni_body cfg s dsts m = (inr tt, set_all s dsts m).
Proof.
  intros Hs Hsrc Hm Hc. unfold map_uni_body.
  erewrite bind_ok by (by apply check_exception_pass).
  by apply uni_loop_ok.
Qed.

(** ** [map_clear]: the body *)

Lemma elem_of_items (ord : dict_order) (m : mappings) (k v : string) :
  (k, v) ∈ items ord m ↔ m !! k = Some v.
Proof. rewrite (items_perm ord m). apply elem_of_map_to_list. Qed.

Lemma elem_of_touching (ord : dict_order) (m : mappings) (port k : string) :
  k ∈ touching ord m port ↔ ∃ v, m !! k = Some v ∧ (v = port ∨ k = port).
Proof.
  unfold touching. rewrite list_elem_of_fmap. split.
  - intros ([k' v] & -> & H). apply list_elem_of_filter in H as [H1 H2].
    exists v. split; [by apply elem_of_items in H2 | exact H1].
  - intros (v & Hk & H). exists (k, v). split; [done|].
    apply list_elem_of_filter. split; [exact H | by apply elem_of_items].
Qed.

Lemma elem_of_flat_map {A B} (f : A → list B) (l : list A) (y : B) :
  y ∈ flat_map f l ↔ ∃ x, x ∈ l ∧ y ∈ f x.
Proof.
  rewrite list_elem_of_In, in_flat_map.
  split; intros (x & H1 & H2); exists x; by rewrite ?list_elem_of_In in *.
Qed.

(** The keys [map_clear] collects: those of the entries in which a listed
    port is the key or the value. *)
Lemma elem_of_collected (ord : dict_order) (m : mappings) (ports : list string) (k : string) :
  k ∈ flat_map (touching ord m) ports ↔
  ∃ v, m !! k = Some v ∧ (k ∈ ports ∨ v ∈ ports).
Proof.
  rewrite elem_of_flat_map. setoid_rewrite elem_of_touching. split.
  - intros (p & Hp & v & Hk & [->| ->]); eauto.
  - intros (v & Hk & [H|H]); eauto 6.
Qed.

Lemma clear_keeps_marked (ord : dict_order) (ports : list string) (k v : string) (m : mappings) :
  m !! k = Some v → marked (Some v) = true →
  (map_clear_body ord ports m).2 !! k = Some v.
Proof. intros Hk Hv. unfold map_clear_body, bind, collect_ports. by apply del_keeps_marked. Qed.

Lemma clear_marked_fails (ord : dict_order) (ports : list string) (k v : string) (m : mappings) :
  k ∈ ports → m !! k = Some v → marked (Some v) = true →
  ∃ s, (map_clear_body ord ports m).1 = inl (PortException s) ∧ marked (Some s) = true.
Proof.
  intros Hin Hk Hv. unfold map_clear_body, bind, collect_ports.
  eapply del_marked_fails; [|done..].
  apply elem_of_collected. eauto.
Qed.

(** When no entry has the port as its value, the port itself is the first key
    collected for it. *)
Lemma touching_head (ord : dict_order) (m : mappings) (p v : string) :
  m !! p = Some v → (∀ k, m !! k ≠ Some p) →
  ∃ rest, touching ord m p = p :: rest.
Proof.
  intros Hp Hno. destruct (touching ord m p) as [|k rest] eqn:E.
  - assert (H : p ∈ touching ord m p) by (apply elem_of_touching; eauto).
    rewrite E in H. by apply elem_of_nil in H.
  - assert (H : k ∈ touching ord m p) by (rewrite E; apply list_elem_of_here).
    apply elem_of_touching in H as (v' & Hk & [->| ->]); [by apply Hno in Hk | eauto].
Qed.

Lemma clear_head_marked (ord : dict_order) (p v : string) (rest : list string) (m : mappings) :
  m !! p = Some v → marked (Some v) = true → (∀ k, m !! k ≠ Some p) →
  map_clear_body ord (p :: rest) m = (inl (PortException v), m).
Proof.
  intros Hp Hv Hno. unfold map_clear_body, bind, collect_ports.
  destruct (touching_head ord m p v Hp Hno) as [tl E].
  simpl. rewrite E. simpl. by apply del_head_marked.
Qed.

Lemma clear_ok_inv (ord : dict_order) (ports : list string) (m : mappings) :
  (map_clear_body ord ports m).1 = inr tt →
  ∀ k, (map_clear_body ord ports m).2 !! k =
       v ← m !! k; if decide (k ∈ ports ∨ v ∈ ports) then None else Some v.
Proof.
  unfold map_clear_body, bind, collect_ports. intros H k.
  rewrite (del_ok_inv _ _ H), lookup_delete_all.
  destruct (decide (k ∈ flat_map (touching ord m) ports)) as [Hin|Hnin].
  - apply elem_of_collected in Hin as (v & -> & Hv). simpl.
    by rewrite decide_True.
  - destruct (m !! k) as [v|] eqn:Hk; [simpl|done].
    rewrite decide_False; [done|]. intros Hv. apply Hnin, elem_of_collected. eauto.
Qed.

Lemma clear_ok (ord : dict_order) (ports : list string) (m : mappings) :
  (∀ k v, m !! k = Some v → k ∈ ports ∨ v ∈ ports → marked (Some v) = false) →
  (map_clear_body ord ports m).1 = inr tt.
Proof.
  intros H. unfold map_clear_body, bind, collect_ports.
  rewrite del_ok; [done|]. intros k Hk.
  apply elem_of_collected in Hk as (v & Hk & Hv). rewrite Hk. eauto.
Qed.

(** ** [map_clear_to]: the body *)

Lemma clear_to_src_marked (s v : string) (dsts : list string) (m : mappings) :
  m !! s = Some v → marked (Some v) = true →
  map_clear_to_body s dsts m = (inl (PortException v), m).
Proof.
  intros Hs Hv. unfold map_clear_to_body. apply bind_err.
  by apply check_exception_raise.
Qed.

Lemma clear_to_keeps_marked (s k v : string) (dsts : list string) (m : mappings) :
  m !! k = Some v → marked (Some v) = true →
  (map_clear_to_body s dsts m).2 !! k = Some v.
Proof.
  intros Hk Hv. unfold map_clear_to_body.
  destruct (check_exception_cases s m) as [[_ E]|(x & _ & _ & E)].
  - erewrite bind_ok by exact E. unfold bind, scan_ports. by apply del_keeps_marked.
  - erewrite bind_err by exact E. exact Hk.
Qed.

Lemma clear_to_ok (s : string) (dsts : list string) (m : mappings) :
  marked (m !! s) = false → marked (Some s) = false →
  map_clear_to_body s dsts m =
    (inr tt, delete_all (filter (λ d, m !! d = Some s) dsts) m).
Proof.
  intros Hs Hsrc. unfold map_clear_to_body.
  erewrite bind_ok by (by apply check_exception_pass).
  unfold bind, scan_ports. apply del_ok.
  intros k Hk. apply list_elem_of_filter in Hk as [-> _]. exact Hsrc.
Qed.

(** A destination that does not hold the source is not looked at. *)
Lemma clear_to_skips (s : string) (dsts : list string) (m : mappings) :
  marked (m !! s) = false → (∀ d, d ∈ dsts → m !! d ≠ Some s) →
  map_clear_to_body s dsts m = (inr tt, m).
Proof.
  intros Hs Hno. unfold map_clear_to_body.
  erewrite bind_ok by (by apply check_exception_pass).
  unfold bind, scan_ports.
  replace (filter (λ d, m !! d = Some s) dsts) with (@nil string); [done|].
  symmetry. apply elem_of_nil_inv. intros d Hd.
  apply list_elem_of_filter in Hd as [H1 H2]. by apply Hno in H2.
Qed.

(** ** The transaction manager *)

Lemma or_empty_Some (m : mappings) : or_empty (Some m) = m.
Proof. unfold or_empty. by destruct (decide (m = ∅)) as [->|]. Qed.

Lemma stored_YamlDoc (m : mappings) (l : bool) (t : list io_event) :
  stored (World (YamlDoc m) l t) = m.
Proof. apply or_empty_Some. Qed.

(** [__enter__] hands out the stored Mapping Set when the lock was taken and
    an empty dictionary when it was not; it raises in neither case. *)
Lemma enter_spec (w : world) :
  ∃ w1, enter w = (inr (if lock_usable w then stored w else ∅),
                   Manager (Some (if lock_usable w then stored w else ∅)) (lock_usable w),
                   w1) ∧
        file w1 = file w ∧ lock_usable w1 = lock_usable w.
Proof.
  destruct w as [f [] t]; destruct f; unfold enter, enter_try, acquire, read_mappings;
    simpl; eexists; (split; [reflexivity|]); split; reflexivity.
Qed.

Lemma transaction_spec (body : Body unit) (w : world) :
  let m0 := if lock_usable w then stored w else ∅ in
  (transaction body w).1 = (if lock_usable w then (body m0).1 else inl NotLocked) ∧
  file (transaction body w).2 = YamlDoc (body m0).2 ∧
  lock_usable (transaction body w).2 = lock_usable w.
Proof.
  intros m0. unfold transaction.
  destruct (enter_spec w) as (w1 & -> & Hf & Hl). fold m0.
  destruct (body m0) as [r m']. unfold exit_, release. simpl.
  destruct (lock_usable w); simpl; by rewrite ?Hl.
Qed.

Lemma transaction_result (body : Body unit) (w : world) :
  lock_usable w = true → (transaction body w).1 = (body (stored w)).1.
Proof. intros H. pose proof (transaction_spec body w) as [E _]. by rewrite H in E. Qed.

Lemma transaction_stored (body : Body unit) (w : world) :
  lock_usable w = true → stored (transaction body w).2 = (body (stored w)).2.
Proof.
  intros H. pose proof (transaction_spec body w) as (_ & E & _). rewrite H in E.
  unfold stored. rewrite E. apply or_empty_Some.
Qed.

Lemma transaction_lock (body : Body unit) (w : world) :
  lock_usable (transaction body w).2 = lock_usable w.
Proof. apply transaction_spec. Qed.

(** A transaction on a held lock, from the body's run on the stored set. *)
Lemma transaction_run (body : Body unit) (w : world) (r : error + unit) (m' : mappings) :
  lock_usable w = true → body (stored w) = (r, m') →
  (transaction body w).1 = r ∧ stored (transaction body w).2 = m'.
Proof.
  intros Hl E. rewrite transaction_result, transaction_stored by done.
  by rewrite E.
Qed.

(** The outcome depends on the file only through the Mapping Set it denotes. *)
Lemma transaction_ext (body : Body unit) (w w' : world) :
  stored w = stored w' → lock_usable w = lock_usable w' →
  (transaction body w).1 = (transaction body w').1 ∧
  file (transaction body w).2 = file (transaction body w').2.
Proof.
  intros Hs Hl.
  pose proof (transaction_spec body w) as (E1 & E2 & _).
  pose proof (transaction_spec body w') as (E1' & E2' & _).
  rewrite E1, E2, E1', E2', Hs, Hl. done.
Qed.

(** ** A port whose stored value carries the marker *)

Section marked_port.
Variables (cfg : config) (w : world) (p v : string).
Hypothesis Hlock : lock_usable w = true.
Hypothesis Hp : stored w !! p = Some v.
Hypothesis Hv : marked (Some v) = true.

Lemma blocked_bidi_src (d : string) :
  (map_bidi cfg p d w).1 = inl (PortException v) ∧
  stored (map_bidi cfg p d w).2 = stored w.
Proof. apply transaction_run; [done|]. by apply bidi_src_marked. Qed.

Lemma blocked_bidi_dst (s : string) :
  marked (stored w !! s) = false →
  (map_bidi cfg s p w).1 = inl (PortException v) ∧
  stored (map_bidi cfg s p w).2 = stored w.
Proof. intros Hs. apply transaction_run; [done|]. by apply bidi_dst_marked. Qed.

Lemma blocked_bidi (s d : string) :
  s = p ∨ d = p →
  ∃ x, (map_bidi cfg s d w).1 = inl (PortException x) ∧ marked (Some x) = true ∧
       stored (map_bidi cfg s d w).2 = stored w.
Proof.
  intros [->| ->].
  - exists v. split_and!; [apply blocked_bidi_src | done | apply blocked_bidi_src].
  - destruct (marked (stored w !! s)) eqn:Hs.
    + destruct (stored w !! s) as [x|] eqn:Hx; [|discriminate].
      exists x. split; [|split; [done|]];
        apply (transaction_run _ _ (inl (PortException x)) (stored w));
        try done; by apply bidi_src_marked.
    + exists v. split_and!; [by apply blocked_bidi_dst | done | by apply blocked_bidi_dst].
Qed.

Lemma blocked_uni_src (dsts : list string) :
  (map_uni cfg p dsts w).1 = inl (PortException v) ∧
  stored (map_uni cfg p dsts w).2 = stored w.
Proof. apply transaction_run; [done|]. by apply uni_src_marked. Qed.

Lemma blocked_uni_head (s : string) (rest : list string) :
  marked (stored w !! s) = false →
  (map_uni cfg s (p :: rest) w).1 = inl (PortException v) ∧
  stored (map_uni cfg s (p :: rest) w).2 = stored w.
Proof. intros Hs. apply transaction_run; [done|]. by apply uni_head_marked. Qed.

Lemma blocked_uni (s : string) (dsts : list string) :
  p ∈ dsts →
  (∃ e, (map_uni cfg s dsts w).1 = inl e) ∧
  stored (map_uni cfg s dsts w).2 !! p = Some v.
Proof.
  intros Hin. unfold map_uni.
  rewrite transaction_result, transaction_stored by done.
  split; [by eapply uni_marked_fails | by apply uni_keeps_marked].
Qed.

Lemma blocked_clear (ord : dict_order) (ports : list string) :
  p ∈ ports →
  (∃ x, (map_clear ord cfg ports w).1 = inl (PortException x) ∧ marked (Some x) = true) ∧
  stored (map_clear ord cfg ports w).2 !! p = Some v.
Proof.
  intros Hin. unfold map_clear.
  rewrite transaction_result, transaction_stored by done.
  split; [by eapply clear_marked_fails | by apply clear_keeps_marked].
Qed.

Lemma blocked_clear_head (ord : dict_order) (rest : list string) :
  (∀ k, stored w !! k ≠ Some p) →
  (map_clear ord cfg (p :: rest) w).1 = inl (PortException v) ∧
  stored (map_clear ord cfg (p :: rest) w).2 = stored w.
Proof. intros Hno. apply transaction_run; [done|]. by apply clear_head_marked. Qed.

Lemma blocked_clear_to_src (dsts : list string) :
  (map_clear_to cfg p dsts w).1 = inl (PortException v) ∧
  stored (map_clear_to cfg p dsts w).2 = stored w.
Proof. apply transaction_run; [done|]. by apply clear_to_src_marked. Qed.

Lemma kept_by_clear_to (s : string) (dsts : list string) :
  stored (map_clear_to cfg s dsts w).2 !! p = Some v.
Proof.
  unfold map_clear_to. rewrite transaction_stored by done.
  by apply clear_to_keeps_marked.
Qed.

End marked_port.

(** * The claims *)

(** ** C1 *)

(** C1, as amended. Let the stored value [v] of port [p] carry the marker.
    - With [p] as the source argument of [map_bidi], [map_uni], [map_tap] or
      [map_clear_to], the call raises with the text [v] and the stored
      Mapping Set is unchanged.
    - So it is with [p] as the destination of [map_bidi] or as the first
      destination of [map_uni]/[map_tap] when the source is not marked, and
      with [p] as the first port of [map_clear] when no entry has [p] as its
      value; a [map_bidi] naming [p] always raises a port exception and
      changes nothing.
    - With [p] anywhere among the destinations of [map_uni]/[map_tap] or the
      ports of [map_clear], the call raises and the entry of [p] is kept;
      nothing is said about the entries handled before the raise.
    - [map_clear_to] keeps the entry of [p] whatever its arguments; when
      its source is not marked and no destination holds the source (as when
      [p] is the only destination and the source is not the text [v]), it
      succeeds and changes nothing. *)
Theorem C1_exception_marker_blocks (ord : dict_order) (cfg : config) (w : world)
    (p v : string) :
  lock_usable w = true → stored w !! p = Some v → marked (Some v) = true →
  (∀ d, (map_bidi cfg p d w).1 = inl (PortException v) ∧
        stored (map_bidi cfg p d w).2 = stored w) ∧
  (∀ dsts, (map_uni cfg p dsts w).1 = inl (PortException v) ∧
           stored (map_uni cfg p dsts w).2 = stored w) ∧
  (∀ dsts, (map_tap cfg p dsts w).1 = inl (PortException v) ∧
           stored (map_tap cfg p dsts w).2 = stored w) ∧
  (∀ dsts, (map_clear_to cfg p dsts w).1 = inl (PortException v) ∧
           stored (map_clear_to cfg p dsts w).2 = stored w) ∧
  (∀ s, marked (stored w !! s) = false →
        (map_bidi cfg s p w).1 = inl (PortException v) ∧
        stored (map_bidi cfg s p w).2 = stored w) ∧
  (∀ s rest, marked (stored w !! s) = false →
        (map_uni cfg s (p :: rest) w).1 = inl (PortException v) ∧
        stored (map_uni cfg s (p :: rest) w).2 = stored w) ∧
  (∀ s rest, marked (stored w !! s) = false →
        (map_tap cfg s (p :: rest) w).1 = inl (PortException v) ∧
        stored (map_tap cfg s (p :: rest) w).2 = stored w) ∧
  (∀ rest, (∀ k, stored w !! k ≠ Some p) →
        (map_clear ord cfg (p :: rest) w).1 = inl (PortException v) ∧
        stored (map_clear ord cfg (p :: rest) w).2 = stored w) ∧
  (∀ s d, s = p ∨ d = p →
        ∃ x, (map_bidi cfg s d w).1 = inl (PortException x) ∧ marked (Some x) = true ∧
             stored (map_bidi cfg s d w).2 = stored w) ∧
  (∀ s dsts, p ∈ dsts →
        (∃ e, (map_uni cfg s dsts w).1 = inl e) ∧
        stored (map_uni cfg s dsts w).2 !! p = Some v) ∧
  (∀ s dsts, p ∈ dsts →
        (∃ e, (map_tap cfg s dsts w).1 = inl e) ∧
        stored (map_tap cfg s dsts w).2 !! p = Some v) ∧
  (∀ ports, p ∈ ports →
        (∃ x, (map_clear ord cfg ports w).1 = inl (PortException x) ∧
              marked (Some x) = true) ∧
        stored (map_clear ord cfg ports w).2 !! p = Some v) ∧
  (∀ s dsts, stored (map_clear_to cfg s dsts w).2 !! p = Some v) ∧
  (∀ s dsts, marked (stored w !! s) = false → (∀ d, d ∈ dsts → stored w !! d ≠ Some s) →
        (map_clear_to cfg s dsts w).1 = inr tt ∧
        stored (map_clear_to cfg s dsts w).2 = stored w).
Proof.
  intros Hlock Hp Hv. unfold map_tap. split_and!; intros.
  - by apply blocked_bidi_src.
  - by apply blocked_uni_src.
  - by apply blocked_uni_src.
  - by apply blocked_clear_to_src.
  - by apply blocked_bidi_dst.
  - by apply blocked_uni_head.
  - by apply blocked_uni_head.
  - by apply blocked_clear_head.
  - by eapply blocked_bidi.
  - by apply blocked_uni.
  - by apply blocked_uni.
  - by apply blocked_clear.
  - by apply kept_by_clear_to.
  - apply transaction_run; [done|]. by apply clear_to_skips.
Qed.

Lemma C1_exception_marker_blocks_witness :
  lock_usable (on_disk seeded) = true ∧
  stored (on_disk seeded) !! "P1" = Some "except: fiber fault" ∧
  marked (Some "except: fiber fault") = true ∧
  (map_uni cfg_strict "A" ["P1"; "B"] (on_disk seeded)).1
    = inl (PortException "except: fiber fault") ∧
  stored (map_uni cfg_strict "A" ["P1"; "B"] (on_disk seeded)).2 = stored (on_disk seeded).
Proof.
  assert (H1 : lock_usable (on_disk seeded) = true) by reflexivity.
  assert (H2 : stored (on_disk seeded) !! "P1" = Some "except: fiber fault")
    by (vm_compute; reflexivity).
  assert (H3 : marked (Some "except: fiber fault") = true) by (vm_compute; reflexivity).
  split_and!; [exact H1 | exact H2 | exact H3 | |].
  - apply (C1_exception_marker_blocks default_order cfg_strict _ _ _ H1 H2 H3).
    vm_compute; reflexivity.
  - apply (C1_exception_marker_blocks default_order cfg_strict _ _ _ H1 H2 H3).
    vm_compute; reflexivity.
Defined.

(** C1 as stated fails. On the store seeded with
    ["P1": "except: fiber fault"], [map_uni("A", ["B", "P1"])] raises with
    the marker text only after it has written [B -> A], and the file is
    rewritten with that entry; [map_clear_to("A", ["P1"])] does not raise at
    all. *)
Lemma C1_counterexample :
  stored (on_disk seeded) !! "P1" = Some "except: fiber fault" ∧
  marked (Some "except: fiber fault") = true ∧
  (map_uni cfg_default "A" ["B"; "P1"] (on_disk seeded)).1
    = inl (PortException "except: fiber fault") ∧
  stored (on_disk seeded) !! "B" = None ∧
  stored (map_uni cfg_default "A" ["B"; "P1"] (on_disk seeded)).2 !! "B" = Some "A" ∧
  stored (map_uni cfg_default "A" ["B"; "P1"] (on_disk seeded)).2 ≠ stored (on_disk seeded) ∧
  (map_clear_to cfg_default "A" ["P1"] (on_disk seeded)).1 = inr tt.
Proof.
  split_and!; try (vm_compute; reflexivity).
  intros H. apply (f_equal (λ m : mappings, m !! "B")) in H.
  vm_compute in H. discriminate.
Qed.

(** ** C2 *)

(** When [acquire] raises, [__enter__] still returns: the body runs on an
    empty dictionary, [__exit__] writes what the body left, and the only error
    to surface is the one of [release]. *)
Lemma transaction_unlocked (body : Body unit) (w : world) :
  lock_usable w = false →
  transaction body w = (inl NotLocked, write_file (body ∅).2 w).
Proof.
  intros Hl. destruct w as [f l t]. simpl in Hl. subst l.
  unfold transaction, enter, enter_try, acquire. simpl.
  destruct (body ∅) as [r m']. reflexivity.
Qed.

(** C2, the code at a failing input. The mapping file holds [A <-> B] and its
    lock cannot be acquired. [map_bidi("X", "Y")] does not stop at the lock:
    [__enter__] returns an empty dictionary, the body connects [X] and [Y] in
    it, and [__exit__] overwrites the file, so the entries of [A] and [B] are
    lost; [NotLocked] is raised only afterwards, by [release]. *)
Theorem C2_lock_failure_overwrites_file :
  let w := World (YamlDoc {[ "A" := "B"; "B" := "A" ]}) false [] in
  let out := map_bidi cfg_default "X" "Y" w in
  acquire w = (inl LockFailed, w) ∧
  (enter w).1.1 = inr ∅ ∧
  out.1 = inl NotLocked ∧
  file out.2 = YamlDoc {[ "X" := "Y"; "Y" := "X" ]} ∧
  trace out.2 = [EvWrite {[ "X" := "Y"; "Y" := "X" ]}] ∧
  stored out.2 !! "A" = None.
Proof.
  intros w out. unfold out, map_bidi.
  rewrite (transaction_unlocked _ w eq_refl).
  split_and!; vm_compute; reflexivity.
Qed.

(** ** C5 *)

(** C5. From a mapping file that is missing, empty or unparsable,
    [__enter__] returns the empty dictionary and does not raise; [map_bidi],
    [map_uni] and [map_tap] then end with the result and the file they end
    with on a file holding the empty mapping, and with the lock held a
    [map_bidi] of two ports succeeds and stores the pair. *)
Theorem C5_tolerant_read (cfg : config) (w : world) :
  file w = NoFile ∨ file w = EmptyFile ∨ file w = Malformed →
  (enter w).1.1 = inr ∅ ∧
  (∀ s d, (map_bidi cfg s d w).1 = (map_bidi cfg s d (with_file (YamlDoc ∅) w)).1 ∧
          file (map_bidi cfg s d w).2 = file (map_bidi cfg s d (with_file (YamlDoc ∅) w)).2) ∧
  (∀ s dsts, (map_uni cfg s dsts w).1 = (map_uni cfg s dsts (with_file (YamlDoc ∅) w)).1 ∧
          file (map_uni cfg s dsts w).2 = file (map_uni cfg s dsts (with_file (YamlDoc ∅) w)).2) ∧
  (∀ s dsts, (map_tap cfg s dsts w).1 = (map_tap cfg s dsts (with_file (YamlDoc ∅) w)).1 ∧
          file (map_tap cfg s dsts w).2 = file (map_tap cfg s dsts (with_file (YamlDoc ∅) w)).2) ∧
  (lock_usable w = true →
   ∀ s d, (map_bidi cfg s d w).1 = inr tt ∧
          stored (map_bidi cfg s d w).2 = <[d:=s]> {[ s := d ]}).
Proof.
  intros Hf.
  assert (Hs : stored w = ∅).
  { unfold stored. by destruct Hf as [->|[->| ->]]. }
  assert (He : stored w = stored (with_file (YamlDoc ∅) w)).
  { rewrite Hs. symmetry. apply (or_empty_Some ∅). }
  split_and!.
  - destruct (enter_spec w) as (w1 & -> & _). simpl. rewrite Hs.
    by destruct (lock_usable w).
  - intros s d. by apply transaction_ext.
  - intros s dsts. by apply transaction_ext.
  - intros s dsts. by apply transaction_ext.
  - intros Hl s d. apply transaction_run; [done|]. rewrite Hs.
    rewrite bidi_ok; [done|by rewrite lookup_empty..|].
    right. by rewrite !lookup_empty.
Qed.

Lemma C5_tolerant_read_witness :
  (enter (World Malformed true [])).1.1 = inr ∅ ∧
  (map_bidi cfg_strict "A" "B" (World Malformed true [])).1 = inr tt.
Proof.
  split.
  - apply (C5_tolerant_read cfg_strict (World Malformed true [])). auto.
  - apply (C5_tolerant_read cfg_strict (World Malformed true [])); auto.
Defined.

(** ** C8 *)

(** C8. [map_tap] is [map_uni]: on every input and every state of the file
    and the lock it gives the same result (return or error) and leaves the
    same file and the same reads and writes behind. *)
Theorem C8_tap_is_uni (cfg : config) (src_port : string) (dst_ports : list string)
    (w : world) :
  map_tap cfg src_port dst_ports w = map_uni cfg src_port dst_ports w.
Proof. reflexivity. Qed.

(** ** C10 *)

(** C10. For a port [p] that is not a key of the store, [map_bidi(p, p)]
    succeeds under either override setting and adds the one entry [p -> p]:
    every other key keeps what it had, the store grows by one entry, and from
    the empty store the result is exactly [{p: p}]. *)
Theorem C10_self_bidi_single_entry (cfg : config) (w : world) (p : string) :
  lock_usable w = true → stored w !! p = None →
  (map_bidi cfg p p w).1 = inr tt ∧
  stored (map_bidi cfg p p w).2 = <[p:=p]> (stored w) ∧
  (∀ k, k ≠ p → stored (map_bidi cfg p p w).2 !! k = stored w !! k) ∧
  size (stored (map_bidi cfg p p w).2) = S (size (stored w)) ∧
  (stored w = ∅ → stored (map_bidi cfg p p w).2 = {[ p := p ]}).
Proof.
  intros Hl Hp.
  assert (E : map_bidi_body cfg p p (stored w) = (inr tt, <[p:=p]> (stored w))).
  { rewrite bidi_ok, insert_insert_eq; [done|by rewrite Hp..|].
    right. by rewrite Hp. }
  destruct (transaction_run _ _ _ _ Hl E) as [Hr Hs]. fold (map_bidi cfg p p) in Hr, Hs.
  rewrite Hr, Hs. split_and!; [done|done| | |].
  - intros k Hk. by rewrite lookup_insert_ne.
  - by apply map_size_insert_None.
  - intros ->. apply insert_empty.
Qed.

Lemma C10_self_bidi_single_entry_witness :
  (map_bidi cfg_strict "P" "P" (on_disk ∅)).1 = inr tt ∧
  stored (map_bidi cfg_strict "P" "P" (on_disk ∅)).2 = {[ "P" := "P" ]}.
Proof.
  assert (H1 : lock_usable (on_disk ∅) = true) by reflexivity.
  assert (H2 : stored (on_disk ∅) !! "P" = None) by (vm_compute; reflexivity).
  split.
  - apply (C10_self_bidi_single_entry cfg_strict _ _ H1 H2).
  - apply (C10_self_bidi_single_entry cfg_strict _ _ H1 H2). vm_compute; reflexivity.
Defined.

(** ** C6 *)

Lemma all_values_A (k v : string) :
  ({[ "B" := "A"; "C" := "A" ]} : mappings) !! k = Some v → v = "A".
Proof.
  intros H. apply lookup_insert_Some in H as [[_ <-]|[_ H]]; [done|].
  by apply lookup_singleton_Some in H as [_ <-].
Qed.

(** C6. From the empty Mapping Set, [map_uni("A", ["B", "C"])] succeeds and
    stores [{B: A, C: A}]; [map_clear(["A"])] then succeeds and stores the
    empty set, whatever the override setting and the order of [items()]. In
    general, when [map_clear(ports)] succeeds, the entries it removes are
    those whose key or value is one of [ports], and the others stay. *)
Theorem C6_uni_then_clear (ord : dict_order) (cfg : config) (w : world) :
  lock_usable w = true → stored w = ∅ →
  (map_uni cfg "A" ["B"; "C"] w).1 = inr tt ∧
  stored (map_uni cfg "A" ["B"; "C"] w).2 = {[ "B" := "A"; "C" := "A" ]} ∧
  (map_clear ord cfg ["A"] (map_uni cfg "A" ["B"; "C"] w).2).1 = inr tt ∧
  stored (map_clear ord cfg ["A"] (map_uni cfg "A" ["B"; "C"] w).2).2 = ∅ ∧
  (∀ w' ports, lock_usable w' = true → (map_clear ord cfg ports w').1 = inr tt →
     ∀ k, stored (map_clear ord cfg ports w').2 !! k =
          v ← stored w' !! k; if decide (k ∈ ports ∨ v ∈ ports) then None else Some v).
Proof.
  intros Hl Hs.
  assert (E : map_uni_body cfg "A" ["B"; "C"] (stored w) =
              (inr tt, {[ "B" := "A"; "C" := "A" ]})).
  { rewrite Hs, uni_ok.
    - vm_compute. reflexivity.
    - by rewrite lookup_empty.
    - left. vm_compute. reflexivity.
    - intros d _. by rewrite lookup_empty.
    - right. intros d _. by rewrite lookup_empty. }
  destruct (transaction_run _ _ _ _ Hl E) as [Hr Hs1].
  fold (map_uni cfg "A" ["B"; "C"]) in Hr, Hs1.
  set (w1 := (map_uni cfg "A" ["B"; "C"] w).2) in *.
  assert (Hl1 : lock_usable w1 = true).
  { unfold w1, map_uni. by rewrite transaction_lock. }
  assert (Hok : (map_clear ord cfg ["A"] w1).1 = inr tt).
  { unfold map_clear. rewrite transaction_result, Hs1 by done.
    apply clear_ok. intros k v Hk _. apply all_values_A in Hk as ->.
    vm_compute. reflexivity. }
  split_and!; [done|done|done| |].
  - apply map_eq. intros k. rewrite lookup_empty.
    unfold map_clear in *. rewrite transaction_stored by done.
    rewrite transaction_result in Hok by done.
    rewrite (clear_ok_inv _ _ _ Hok), Hs1.
    destruct (_ !! k) as [v|] eqn:Hk; [simpl|done].
    apply all_values_A in Hk as ->.
    rewrite decide_True; [done|]. right. apply list_elem_of_here.
  - intros w' ports Hl' Hok' k. unfold map_clear in *.
    rewrite transaction_stored by done.
    rewrite transaction_result in Hok' by done.
    by apply clear_ok_inv.
Qed.

Lemma C6_uni_then_clear_witness :
  stored (map_uni cfg_default "A" ["B"; "C"] (on_disk ∅)).2 = {[ "B" := "A"; "C" := "A" ]} ∧
  stored (map_clear default_order cfg_default ["A"]
            (map_uni cfg_default "A" ["B"; "C"] (on_disk ∅)).2).2 = ∅.
Proof.
  assert (H1 : lock_usable (on_disk ∅) = true) by reflexivity.
  assert (H2 : stored (on_disk ∅) = ∅) by (vm_compute; reflexivity).
  split.
  - apply (C6_uni_then_clear default_order cfg_default _ H1 H2).
  - apply (C6_uni_then_clear default_order cfg_default _ H1 H2).
Defined.

(** ** C7 *)

(** C7, as amended. When [src] is not exception-marked and the text of [src]
    itself does not carry the marker, [map_clear_to(src, dsts)] succeeds and
    removes exactly the keys of [dsts] whose stored value is [src]; every
    other key keeps what it had. *)
Theorem C7_clear_to_frame (cfg : config) (w : world) (src : string) (dsts : list string) :
  lock_usable w = true → marked (stored w !! src) = false → marked (Some src) = false →
  (map_clear_to cfg src dsts w).1 = inr tt ∧
  ∀ k, stored (map_clear_to cfg src dsts w).2 !! k =
       if decide (k ∈ dsts ∧ stored w !! k = Some src) then None else stored w !! k.
Proof.
  intros Hl Hs Hsrc.
  destruct (transaction_run _ _ _ _ Hl (clear_to_ok src dsts (stored w) Hs Hsrc))
    as [Hr Hst].
  fold (map_clear_to cfg src dsts) in Hr, Hst. split; [exact Hr|].
  intros k. rewrite Hst, lookup_delete_all.
  destruct (decide (k ∈ filter (λ d, stored w !! d = Some src) dsts)) as [Hin|Hnin].
  - apply list_elem_of_filter in Hin as [H1 H2]. by rewrite decide_True.
  - rewrite decide_False; [done|]. intros [H1 H2].
    apply Hnin, list_elem_of_filter. done.
Qed.

Lemma C7_clear_to_frame_witness :
  (map_clear_to cfg_strict "A" ["B"; "C"] (on_disk {[ "B" := "A"; "C" := "Z" ]})).1 = inr tt ∧
  stored (map_clear_to cfg_strict "A" ["B"; "C"] (on_disk {[ "B" := "A"; "C" := "Z" ]})).2
    !! "C" = Some "Z".
Proof.
  assert (H1 : lock_usable (on_disk {[ "B" := "A"; "C" := "Z" ]}) = true) by reflexivity.
  assert (H2 : marked (stored (on_disk {[ "B" := "A"; "C" := "Z" ]}) !! "A") = false)
    by (vm_compute; reflexivity).
  assert (H3 : marked (Some "A") = false) by (vm_compute; reflexivity).
  split.
  - apply (C7_clear_to_frame cfg_strict _ "A" ["B"; "C"] H1 H2 H3).
  - rewrite (proj2 (C7_clear_to_frame cfg_strict _ "A" ["B"; "C"] H1 H2 H3)).
    vm_compute. reflexivity.
Defined.

(** C7 as stated fails. The store holds [D -> "lab-except/1"]; the port
    ["lab-except/1"] is not a key, so it is not exception-marked. The key [D]
    holds the source, yet [map_clear_to("lab-except/1", ["D"])] raises on it
    and leaves it in place. *)
Lemma C7_counterexample :
  let w := on_disk {[ "D" := "lab-except/1" ]} in
  marked (stored w !! "lab-except/1") = false ∧
  stored w !! "D" = Some "lab-except/1" ∧
  (map_clear_to cfg_default "lab-except/1" ["D"] w).1 = inl (PortException "lab-except/1") ∧
  stored (map_clear_to cfg_default "lab-except/1" ["D"] w).2 !! "D" = Some "lab-except/1".
Proof. split_and!; vm_compute; reflexivity. Qed.

(** ** C3 *)

(** C3, as amended. The store holds [dst -> src1], where [src1] is a
    non-empty text without the marker, and [src2], different from [src1], is
    not exception-marked.
    - Override off: [map_bidi(src2, dst)], and [map_uni(src2, dsts)] with
      [dst] first in [dsts], raise the conflict of [src1 -> dst] and leave
      the store unchanged; [map_uni(src2, dsts)] with [dst] anywhere in [dsts]
      raises and leaves the entry [dst -> src1] in place.
    - Override on: [map_bidi(src2, dst)] succeeds and the store holds
      [dst -> src2]; so does [map_uni(src2, dsts)] with [dst] in [dsts], when
      no destination is exception-marked and the text of [src2] does not
      carry the marker or no destination is listed twice. *)
Theorem C3_override_policy (cfg : config) (w : world) (dst src1 src2 : string) :
  lock_usable w = true → stored w !! dst = Some src1 →
  src1 ≠ "" → marked (Some src1) = false →
  src2 ≠ src1 → marked (stored w !! src2) = false →
  (override_mapping cfg = false →
     ((map_bidi cfg src2 dst w).1 = inl (MappingConflict src1 dst) ∧
      stored (map_bidi cfg src2 dst w).2 = stored w) ∧
     (∀ rest, (map_uni cfg src2 (dst :: rest) w).1 = inl (MappingConflict src1 dst) ∧
              stored (map_uni cfg src2 (dst :: rest) w).2 = stored w) ∧
     (∀ dsts, dst ∈ dsts →
              (∃ e, (map_uni cfg src2 dsts w).1 = inl e) ∧
              stored (map_uni cfg src2 dsts w).2 !! dst = Some src1)) ∧
  (override_mapping cfg = true →
     ((map_bidi cfg src2 dst w).1 = inr tt ∧
      stored (map_bidi cfg src2 dst w).2 !! dst = Some src2) ∧
     (∀ dsts, dst ∈ dsts →
              (∀ d, d ∈ dsts → marked (stored w !! d) = false) →
              marked (Some src2) = false ∨ NoDup dsts →
              (map_uni cfg src2 dsts w).1 = inr tt ∧
              stored (map_uni cfg src2 dsts w).2 !! dst = Some src2)).
Proof.
  intros Hl Hd Hne Hm Hdiff Hs2.
  assert (Hc : conflicting (Some src1) src2 = true) by (by apply conflicting_other).
  assert (Hmd : marked (stored w !! dst) = false) by (by rewrite Hd).
  split; intros Ho.
  - split; [|split].
    + apply transaction_run; [done|]. by apply bidi_conflict.
    + intros rest. apply transaction_run; [done|]. by apply uni_head_conflict.
    + intros dsts Hin. unfold map_uni.
      rewrite transaction_result, transaction_stored by done.
      by apply uni_conflict_keeps.
  - split.
    + unfold map_bidi. rewrite transaction_result, transaction_stored by done.
      rewrite bidi_ok by auto. split; [done|]. apply lookup_insert_eq.
    + intros dsts Hin Hall Hdup. unfold map_uni.
      rewrite transaction_result, transaction_stored by done.
      rewrite uni_ok by auto. split; [done|]. simpl.
      rewrite lookup_set_all. by rewrite decide_True.
Qed.

Lemma C3_override_policy_witness :
  (map_bidi cfg_strict "S2" "D" (on_disk {[ "D" := "S1" ]})).1
    = inl (MappingConflict "S1" "D") ∧
  stored (map_bidi cfg_default "S2" "D" (on_disk {[ "D" := "S1" ]})).2 !! "D" = Some "S2".
Proof.
  assert (H1 : lock_usable (on_disk {[ "D" := "S1" ]}) = true) by reflexivity.
  assert (H2 : stored (on_disk {[ "D" := "S1" ]}) !! "D" = Some "S1")
    by (vm_compute; reflexivity).
  assert (H3 : "S1" ≠ "") by discriminate.
  assert (H4 : marked (Some "S1") = false) by (vm_compute; reflexivity).
  assert (H5 : "S2" ≠ "S1") by discriminate.
  assert (H6 : marked (stored (on_disk {[ "D" := "S1" ]}) !! "S2") = false)
    by (vm_compute; reflexivity).
  split.
  - apply (C3_override_policy cfg_strict _ _ _ _ H1 H2 H3 H4 H5 H6). reflexivity.
  - apply (C3_override_policy cfg_default _ _ _ _ H1 H2 H3 H4 H5 H6). reflexivity.
Defined.

(** C3 as stated fails. The store holds [D -> S1] and the new source [S2] is
    exception-marked: with override off [map_bidi("S2", "D")] raises the port
    exception of [S2], not a mapping conflict, and with override on the same
    call raises too instead of succeeding. *)
Lemma C3_counterexample :
  let w := on_disk {[ "D" := "S1"; "S2" := "except: los" ]} in
  stored w !! "D" = Some "S1" ∧ marked (Some "S1") = false ∧
  (map_bidi cfg_strict "S2" "D" w).1 = inl (PortException "except: los") ∧
  (map_bidi cfg_default "S2" "D" w).1 = inl (PortException "except: los") ∧
  stored (map_bidi cfg_default "S2" "D" w).2 !! "D" = Some "S1".
Proof. split_and!; vm_compute; reflexivity. Qed.

(** ** C4 *)

(** C4, as amended. Two [map_bidi(src, dst)] in a row always leave the same
    stored Mapping Set as one. When the first succeeds, the store holds
    [src -> dst] and [dst -> src], and the second succeeds as well provided
    neither address itself carries the marker. With override on, the first
    succeeds whenever neither port is exception-marked. *)
Theorem C4_bidi_idempotent (cfg : config) (w : world) (src dst : string) :
  lock_usable w = true →
  stored (map_bidi cfg src dst (map_bidi cfg src dst w).2).2
    = stored (map_bidi cfg src dst w).2 ∧
  ((map_bidi cfg src dst w).1 = inr tt →
     stored (map_bidi cfg src dst w).2 = <[dst:=src]> (<[src:=dst]> (stored w)) ∧
     stored (map_bidi cfg src dst w).2 !! src = Some dst ∧
     stored (map_bidi cfg src dst w).2 !! dst = Some src ∧
     (marked (Some src) = false → marked (Some dst) = false →
      (map_bidi cfg src dst (map_bidi cfg src dst w).2).1 = inr tt)) ∧
  (override_mapping cfg = true →
     marked (stored w !! src) = false → marked (stored w !! dst) = false →
     (map_bidi cfg src dst w).1 = inr tt).
Proof.
  intros Hl. unfold map_bidi.
  assert (Hl1 : lock_usable (transaction (map_bidi_body cfg src dst) w).2 = true)
    by (by rewrite transaction_lock).
  rewrite !transaction_result, !transaction_stored by done.
  set (m := stored w).
  destruct (bidi_cases cfg src dst m) as [[E [Hs Hd]]|[e E]]; rewrite E; simpl.
  - set (m' := <[dst:=src]> (<[src:=dst]> m)).
    assert (Hd' : m' !! dst = Some src) by apply lookup_insert_eq.
    assert (Hs' : m' !! src = Some dst).
    { unfold m'. destruct (decide (dst = src)) as [->|Hne].
      - apply lookup_insert_eq.
      - rewrite lookup_insert_ne by done. apply lookup_insert_eq. }
    split; [|split].
    + destruct (bidi_cases cfg src dst m') as [[E' _]|[e' E']]; rewrite E'; simpl;
        [apply insert_pair_again | done].
    + intros _. split; [done|]. split; [done|]. split; [done|]. intros Hms Hmd.
      rewrite bidi_ok; [done|by rewrite ?Hs', ?Hd'..|].
      right. rewrite Hs', Hd'. split; apply conflicting_same.
    + intros _ _ _. reflexivity.
  - rewrite E. simpl. split; [done|]. split; [discriminate|].
    intros Ho Hs Hd. rewrite bidi_ok in E by auto. discriminate.
Qed.

Lemma C4_bidi_idempotent_witness :
  stored (map_bidi cfg_strict "A" "B" (map_bidi cfg_strict "A" "B" (on_disk ∅)).2).2
    = stored (map_bidi cfg_strict "A" "B" (on_disk ∅)).2 ∧
  stored (map_bidi cfg_strict "A" "B" (on_disk ∅)).2 !! "A" = Some "B".
Proof.
  assert (H1 : lock_usable (on_disk ∅) = true) by reflexivity.
  split.
  - exact (proj1 (C4_bidi_idempotent cfg_strict _ "A" "B" H1)).
  - assert (H2 : (map_bidi cfg_strict "A" "B" (on_disk ∅)).1 = inr tt)
      by (vm_compute; reflexivity).
    exact (proj1 (proj2 (proj1 (proj2 (C4_bidi_idempotent cfg_strict _ "A" "B" H1)) H2))).
Defined.

(** C4 as stated fails. Neither [A] nor ["lab-except/2"] is exception-marked
    in the empty store and the first [map_bidi] succeeds, but it stores the
    address ["lab-except/2"] as the value of [A], so the second call raises
    (under either override setting). *)
Lemma C4_counterexample :
  let w := on_disk ∅ in
  marked (stored w !! "A") = false ∧ marked (stored w !! "lab-except/2") = false ∧
  (map_bidi cfg_default "A" "lab-except/2" w).1 = inr tt ∧
  (map_bidi cfg_default "A" "lab-except/2" (map_bidi cfg_default "A" "lab-except/2" w).2).1
    = inl (PortException "lab-except/2") ∧
  (map_bidi cfg_strict "A" "lab-except/2" (map_bidi cfg_strict "A" "lab-except/2" w).2).1
    = inl (PortException "lab-except/2").
Proof. split_and!; vm_compute; reflexivity. Qed.

(** ** C9 *)

(** What [map_uni] can raise: the port exception, or, with override off, the
    mapping conflict. *)
Lemma uni_step_error (cfg : config) (src d : string) (m m' : mappings) (e : error) :
  map_uni_step cfg src d m = (inl e, m') →
  is_port_exception e = true ∨
  (override_mapping cfg = false ∧ is_mapping_conflict e = true).
Proof.
  unfold map_uni_step.
  destruct (check_exception_cases d m) as [[_ E]|(s & _ & _ & E)].
  - erewrite bind_ok by exact E.
    destruct (check_mapping_exist_cases cfg src d m) as [E1|(a & Ho & _ & _ & E1)].
    + erewrite bind_ok by exact E1. discriminate.
    + erewrite bind_err by exact E1. intros [= <- _]. by right.
  - erewrite bind_err by exact E. intros [= <- _]. by left.
Qed.

Lemma uni_loop_error (cfg : config) (src : string) (dsts : list string) (e : error) :
  ∀ m, (for_each dsts (map_uni_step cfg src) m).1 = inl e →
       is_port_exception e = true ∨
       (override_mapping cfg = false ∧ is_mapping_conflict e = true).
Proof.
  induction dsts as [|d dsts IH]; intros m; [discriminate|].
  rewrite for_each_cons. unfold bind.
  destruct (map_uni_step cfg src d m) as [[e'|[]] m'] eqn:E.
  - intros [= <-]. by eapply uni_step_error.
  - apply IH.
Qed.

Lemma uni_error (cfg : config) (src : string) (dsts : list string) (m : mappings) (e : error) :
  (map_uni_body cfg src dsts m).1 = inl e →
  is_port_exception e = true ∨
  (override_mapping cfg = false ∧ is_mapping_conflict e = true).
Proof.
  unfold map_uni_body.
  destruct (check_exception_cases src m) as [[_ E]|(s & _ & _ & E)].
  - erewrite bind_ok by exact E. apply uni_loop_error.
  - erewrite bind_err by exact E. intros [= <-]. by left.
Qed.

(** C9, as amended. [_check_exception] on [p] raises exactly when the
    dictionary holds for [p] a non-empty value whose lower-cased text
    contains ["except"]; the error carries that value and the dictionary is
    untouched. Hence, once [map_bidi(X, D)] has succeeded with an address [D]
    that itself contains the marker, the store holds [X -> D] and:
    every [map_bidi] naming [X], and [map_uni], [map_tap] and [map_clear_to]
    with [X] as the source, raise a port exception; [map_clear] with [X] among
    its ports raises a port exception; [map_uni] and [map_tap] with [X] among
    the destinations raise, a port exception when override is on and either
    that or a mapping conflict when it is off. Nothing is claimed for
    [map_clear_to] with [X] only among its destinations. *)
Theorem C9_marker_in_address (ord : dict_order) (cfg : config) (w : world) (X D : string) :
  (∀ p m e, (check_exception p m).1 = inl e ↔
            ∃ data, e = PortException data ∧ m !! p = Some data ∧ data ≠ "" ∧
                    substring_of "except" (Str.lower data)) ∧
  (∀ p m, (check_exception p m).2 = m) ∧
  (lock_usable w = true → (map_bidi cfg X D w).1 = inr tt → marked (Some D) = true →
   let w1 := (map_bidi cfg X D w).2 in
   stored w1 !! X = Some D ∧
   (∀ s d, s = X ∨ d = X →
      ∃ x, (map_bidi cfg s d w1).1 = inl (PortException x) ∧ marked (Some x) = true) ∧
   (∀ dsts, (map_uni cfg X dsts w1).1 = inl (PortException D)) ∧
   (∀ dsts, (map_tap cfg X dsts w1).1 = inl (PortException D)) ∧
   (∀ dsts, (map_clear_to cfg X dsts w1).1 = inl (PortException D)) ∧
   (∀ ports, X ∈ ports →
      ∃ x, (map_clear ord cfg ports w1).1 = inl (PortException x) ∧ marked (Some x) = true) ∧
   (∀ s dsts, X ∈ dsts →
      ∃ e, (map_uni cfg s dsts w1).1 = inl e ∧
           (is_port_exception e = true ∨
            (override_mapping cfg = false ∧ is_mapping_conflict e = true))) ∧
   (∀ s dsts, X ∈ dsts →
      ∃ e, (map_tap cfg s dsts w1).1 = inl e ∧
           (is_port_exception e = true ∨
            (override_mapping cfg = false ∧ is_mapping_conflict e = true)))).
Proof.
  split; [|split].
  - intros p m e. split.
    + destruct (check_exception_cases p m) as [[_ E]|(s & Hp & Hs & E)]; rewrite E;
        [discriminate|].
      intros [= <-]. apply marked_Some in Hs as [H1 H2]. eauto.
    + intros (data & -> & Hp & Hne & Hsub).
      rewrite (check_exception_raise p data m); [done|done|].
      by apply marked_Some.
  - intros p m.
    destruct (check_exception_cases p m) as [[_ E]|(s & _ & _ & E)]; by rewrite E.
  - intros Hl Hok HD w1.
    assert (Hl1 : lock_usable w1 = true).
    { unfold w1, map_bidi. by rewrite transaction_lock. }
    assert (HX : stored w1 !! X = Some D).
    { unfold w1, map_bidi in *. rewrite transaction_stored by done.
      rewrite transaction_result in Hok by done.
      destruct (bidi_cases cfg X D (stored w)) as [[E _]|[e E]]; rewrite E in *;
        [simpl|discriminate].
      destruct (decide (D = X)) as [->|Hne]; [apply lookup_insert_eq|].
      rewrite lookup_insert_ne by done. apply lookup_insert_eq. }
    split; [exact HX|]. unfold map_tap. split_and!.
    + intros s d Hsd.
      destruct (blocked_bidi cfg w1 X D Hl1 HX HD s d Hsd) as (x & H1 & H2 & _). eauto.
    + intros dsts. by apply blocked_uni_src.
    + intros dsts. by apply blocked_uni_src.
    + intros dsts. by apply blocked_clear_to_src.
    + intros ports Hin. by apply (blocked_clear cfg w1 X D).
    + intros s dsts Hin.
      destruct (blocked_uni cfg w1 X D Hl1 HX HD s dsts Hin) as [[e He] _].
      exists e. split; [done|]. unfold map_uni in He.
      rewrite transaction_result in He by done. by eapply uni_error.
    + intros s dsts Hin.
      destruct (blocked_uni cfg w1 X D Hl1 HX HD s dsts Hin) as [[e He] _].
      exists e. split; [done|]. unfold map_uni in He.
      rewrite transaction_result in He by done. by eapply uni_error.
Qed.

Lemma C9_marker_in_address_witness :
  stored (map_bidi cfg_default "X" "rack-EXCEPT/7" (on_disk ∅)).2 !! "X"
    = Some "rack-EXCEPT/7" ∧
  (map_clear_to cfg_default "X" ["Y"] (map_bidi cfg_default "X" "rack-EXCEPT/7" (on_disk ∅)).2).1
    = inl (PortException "rack-EXCEPT/7").
Proof.
  assert (H1 : lock_usable (on_disk ∅) = true) by reflexivity.
  assert (H2 : (map_bidi cfg_default "X" "rack-EXCEPT/7" (on_disk ∅)).1 = inr tt)
    by (vm_compute; reflexivity).
  assert (H3 : marked (Some "rack-EXCEPT/7") = true) by (vm_compute; reflexivity).
  pose proof (proj2 (proj2 (C9_marker_in_address default_order cfg_default (on_disk ∅)
                              "X" "rack-EXCEPT/7")) H1 H2 H3) as H.
  simpl in H. destruct H as (Ha & _ & _ & _ & Hb & _).
  split; [exact Ha | exact (Hb ["Y"])].
Defined.

(** C9 as stated fails in its second half. After [map_bidi("X",
    "rack-EXCEPT/7")] the store holds [X -> "rack-EXCEPT/7"], yet
    [map_clear_to("Z", ["X"])] names [X] and succeeds: a destination that does
    not hold the source is never checked. And with override off
    [map_uni("S", ["Y", "X"])] fails on [Y], which is held by [T], with a
    mapping conflict and not with a port exception. *)
Lemma C9_counterexample :
  let w := on_disk {[ "Y" := "T" ]} in
  let w1 := (map_bidi cfg_strict "X" "rack-EXCEPT/7" w).2 in
  (map_bidi cfg_strict "X" "rack-EXCEPT/7" w).1 = inr tt ∧
  stored w1 !! "X" = Some "rack-EXCEPT/7" ∧
  marked (stored w1 !! "X") = true ∧
  (map_clear_to cfg_strict "Z" ["X"] w1).1 = inr tt ∧
  stored (map_clear_to cfg_strict "Z" ["X"] w1).2 = stored w1 ∧
  (map_uni cfg_strict "S" ["Y"; "X"] w1).1 = inl (MappingConflict "T" "Y").
Proof. split_and!; vm_compute; reflexivity. Qed.

(** * Further properties of the engine *)

(** ** [map_bidi]: all or nothing, and symmetric *)

Lemma bidi_conflict_src (cfg : config) (s d a : string) (m : mappings) :
  marked (m !! s) = false → marked (m !! d) = false →
  override_mapping cfg = false → conflicting (m !! d) s = false →
  m !! s = Some a → conflicting (Some a) d = true →
  map_bidi_body cfg s d m = (inl (MappingConflict a s), m).
Proof.
  intros Hs Hd Ho Hc1 Ha Hc2. unfold map_bidi_body.
  erewrite bind_ok by (by apply check_exception_pass).
  erewrite bind_ok by (by apply check_exception_pass).
  erewrite bind_ok by (by apply check_mapping_exist_pass).
  apply bind_err. by apply check_mapping_exist_raise.
Qed.

(** When [map_bidi] goes through. *)
Lemma bidi_succeeds_iff (cfg : config) (s d : string) (m : mappings) :
  (map_bidi_body cfg s d m).1 = inr tt ↔
  marked (m !! s) = false ∧ marked (m !! d) = false ∧
  (override_mapping cfg = true ∨
   (conflicting (m !! d) s = false ∧ conflicting (m !! s) d = false)).
Proof.
  split.
  - intros H.
    destruct (marked (m !! s)) eqn:Hs.
    { destruct (m !! s) as [v|] eqn:E; [|discriminate].
      by rewrite (bidi_src_marked cfg s d v m E Hs) in H. }
    destruct (marked (m !! d)) eqn:Hd.
    { destruct (m !! d) as [v|] eqn:E; [|discriminate].
      rewrite (bidi_dst_marked cfg s d v m) in H; [done|done|done|done]. }
    split; [done|]. split; [done|].
    destruct (override_mapping cfg) eqn:Ho; [by left | right].
    destruct (conflicting (m !! d) s) eqn:Hc1.
    { destruct (m !! d) as [a|] eqn:E; [|discriminate].
      rewrite (bidi_conflict cfg s d a m) in H; try done. by rewrite E. }
    split; [done|].
    destruct (conflicting (m !! s) d) eqn:Hc2; [|done].
    destruct (m !! s) as [a|] eqn:E; [|discriminate].
    rewrite (bidi_conflict_src cfg s d a m) in H; try done. by rewrite E.
  - intros (Hs & Hd & Hc). by rewrite bidi_ok.
Qed.

(** [map_bidi] is all or nothing: it either stores both directions, or
    raises and leaves the stored Mapping Set as it was; keys other than its
    two arguments are never touched. *)
Theorem bidi_all_or_nothing (cfg : config) (w : world) (s d : string) :
  lock_usable w = true →
  (((map_bidi cfg s d w).1 = inr tt ∧
    stored (map_bidi cfg s d w).2 = <[d:=s]> (<[s:=d]> (stored w))) ∨
   ((∃ e, (map_bidi cfg s d w).1 = inl e) ∧
    stored (map_bidi cfg s d w).2 = stored w)) ∧
  (∀ k, k ≠ s → k ≠ d → stored (map_bidi cfg s d w).2 !! k = stored w !! k).
Proof.
  intros Hl. unfold map_bidi.
  rewrite transaction_result, transaction_stored by done.
  destruct (bidi_cases cfg s d (stored w)) as [[E _]|[e E]]; rewrite E; simpl.
  - split; [by left|]. intros k Hs Hd. by rewrite !lookup_insert_ne.
  - split; [right; eauto | done].
Qed.

Lemma bidi_all_or_nothing_witness :
  (∃ e, (map_bidi cfg_strict "S2" "D" (on_disk {[ "D" := "S1" ]})).1 = inl e) ∧
  stored (map_bidi cfg_strict "S2" "D" (on_disk {[ "D" := "S1" ]})).2
    = stored (on_disk {[ "D" := "S1" ]}).
Proof.
  destruct (proj1 (bidi_all_or_nothing cfg_strict (on_disk {[ "D" := "S1" ]}) "S2" "D" eq_refl))
    as [[H _]|H]; [|exact H].
  vm_compute in H. discriminate H.
Defined.

(** The order of the two arguments of [map_bidi] does not matter for
    whether the call succeeds nor for the Mapping Set it leaves; only the
    error raised can differ. *)
Theorem bidi_symmetric (cfg : config) (w : world) (s d : string) :
  lock_usable w = true →
  ((map_bidi cfg s d w).1 = inr tt ↔ (map_bidi cfg d s w).1 = inr tt) ∧
  stored (map_bidi cfg s d w).2 = stored (map_bidi cfg d s w).2.
Proof.
  intros Hl. unfold map_bidi.
  rewrite !transaction_result, !transaction_stored by done.
  set (m := stored w).
  assert (Hiff : (map_bidi_body cfg s d m).1 = inr tt ↔ (map_bidi_body cfg d s m).1 = inr tt).
  { rewrite !bidi_succeeds_iff. tauto. }
  split; [exact Hiff|].
  destruct (bidi_cases cfg s d m) as [[E _]|[e E]];
    destruct (bidi_cases cfg d s m) as [[E' _]|[e' E']];
    rewrite ?E, ?E' in *; simpl in *.
  - destruct (decide (s = d)) as [->|Hne]; [done|]. by apply insert_insert_ne.
  - by destruct Hiff as [Hiff _]; specialize (Hiff eq_refl).
  - by destruct Hiff as [_ Hiff]; specialize (Hiff eq_refl).
  - done.
Qed.

Lemma bidi_symmetric_witness :
  stored (map_bidi cfg_strict "A" "B" (on_disk {[ "C" := "A" ]})).2
    = stored (map_bidi cfg_strict "B" "A" (on_disk {[ "C" := "A" ]})).2.
Proof. exact (proj2 (bidi_symmetric cfg_strict (on_disk {[ "C" := "A" ]}) "A" "B" eq_refl)). Defined.

(** ** [map_uni]: what a failed call leaves behind *)

Lemma set_all_app (src : string) (pre post : list string) (m : mappings) :
  set_all src (pre ++ post)%list m = set_all src post (set_all src pre m).
Proof. apply foldl_app. Qed.

(** The loop either runs through, or stops at a destination [d] with the
    error of the step on [d], having assigned the destinations before it. *)
Lemma uni_loop_prefix (cfg : config) (src : string) (dsts : list string) :
  ∀ m, for_each dsts (map_uni_step cfg src) m = (inr tt, set_all src dsts m) ∨
       ∃ pre d post e,
         dsts = (pre ++ d :: post)%list ∧
         map_uni_step cfg src d (set_all src pre m) = (inl e, set_all src pre m) ∧
         for_each dsts (map_uni_step cfg src) m = (inl e, set_all src pre m).
Proof.
  induction dsts as [|d dsts IH]; intros m; [by left|].
  rewrite for_each_cons.
  destruct (uni_step_cases cfg src d m) as [[E _]|[e E]].
  - erewrite bind_ok by exact E.
    destruct (IH (<[d:=src]> m)) as [H|(pre & d' & post & e & -> & H1 & H2)].
    + left. exact H.
    + right. exists (d :: pre), d', post, e. done.
  - right. exists [], d, dsts, e. split; [done|]. split; [exact E|].
    by apply bind_err.
Qed.

(** [map_uni] on a held lock: it succeeds and every destination holds the
    source; or the source is exception-marked and nothing changes; or the
    loop stops at some destination, and the destinations before it hold the
    source in the file although the call raised. Keys that are not
    destinations are never touched. *)
Theorem uni_partial_commit (cfg : config) (w : world) (src : string) (dsts : list string) :
  lock_usable w = true →
  (((map_uni cfg src dsts w).1 = inr tt ∧
    stored (map_uni cfg src dsts w).2 = set_all src dsts (stored w)) ∨
   (∃ v, stored w !! src = Some v ∧ marked (Some v) = true ∧
         (map_uni cfg src dsts w).1 = inl (PortException v) ∧
         stored (map_uni cfg src dsts w).2 = stored w) ∨
   (∃ pre d post e, dsts = (pre ++ d :: post)%list ∧
         (map_uni cfg src dsts w).1 = inl e ∧
         stored (map_uni cfg src dsts w).2 = set_all src pre (stored w) ∧
         (∀ k, k ∈ pre → stored (map_uni cfg src dsts w).2 !! k = Some src))) ∧
  (∀ k, k ∉ dsts → stored (map_uni cfg src dsts w).2 !! k = stored w !! k).
Proof.
  intros Hl. unfold map_uni.
  rewrite transaction_result, transaction_stored by done.
  set (m := stored w). unfold map_uni_body.
  destruct (check_exception_cases src m) as [[_ E]|(v & Hv & Hm & E)].
  - erewrite bind_ok by exact E.
    destruct (uni_loop_prefix cfg src dsts m) as [H|(pre & d & post & e & Hd & _ & H)];
      rewrite H; simpl.
    + split; [by left|]. intros k Hk. by rewrite lookup_set_all, decide_False.
    + split.
      * right; right. exists pre, d, post, e. split_and!; [done..|].
        intros k Hk. by rewrite lookup_set_all, decide_True.
      * intros k Hk. rewrite lookup_set_all, decide_False; [done|].
        intros Hin. apply Hk. rewrite Hd. apply elem_of_app. by left.
  - erewrite bind_err by exact E. simpl. split; [|done].
    right; left. exists v. done.
Qed.

Lemma uni_partial_commit_witness :
  stored (map_uni cfg_strict "A" ["B"; "P1"] (on_disk seeded)).2 !! "Z"
    = stored (on_disk seeded) !! "Z".
Proof.
  apply (proj2 (uni_partial_commit cfg_strict (on_disk seeded) "A" ["B"; "P1"] eq_refl)).
  vm_compute. intros H. repeat (inversion H as [|? ? ? H']; clear H; rename H' into H).
Defined.

(** A source whose own address carries the marker cannot be fanned out to
    a destination listed twice: the second visit finds the destination
    holding the marked address. *)
Lemma uni_loop_dup_fails (cfg : config) (src : string) (dsts : list string) :
  marked (Some src) = true → ¬ NoDup dsts →
  ∀ m, ∃ e, (for_each dsts (map_uni_step cfg src) m).1 = inl e.
Proof.
  intros Hsrc. induction dsts as [|d dsts IH]; intros Hdup m.
  - destruct Hdup. constructor.
  - rewrite for_each_cons.
    destruct (uni_step_cases cfg src d m) as [[E _]|[e E]].
    + erewrite bind_ok by exact E.
      destruct (decide (d ∈ dsts)) as [Hin|Hnin].
      * eapply uni_loop_marked_fails; [exact Hin|apply lookup_insert_eq|done].
      * apply IH. intros Hnd. apply Hdup. by constructor.
    + erewrite bind_err by exact E. eauto.
Qed.

(** On a store where neither the source nor any destination is
    exception-marked and nothing conflicts, [map_uni] succeeds exactly when
    the address of the source is free of the marker or no destination is
    listed twice. *)
Theorem uni_succeeds_iff_nodup (cfg : config) (w : world) (src : string) (dsts : list string) :
  lock_usable w = true →
  marked (stored w !! src) = false →
  (∀ d, d ∈ dsts → marked (stored w !! d) = false) →
  override_mapping cfg = true ∨ (∀ d, d ∈ dsts → conflicting (stored w !! d) src = false) →
  ((map_uni cfg src dsts w).1 = inr tt ↔ marked (Some src) = false ∨ NoDup dsts).
Proof.
  intros Hl Hs Hd Hc. unfold map_uni. rewrite transaction_result by done. split.
  - intros H. destruct (marked (Some src)) eqn:Hsrc; [right | by left].
    destruct (decide (NoDup dsts)) as [|Hdup]; [done|exfalso].
    unfold map_uni_body in H.
    erewrite bind_ok in H by (by apply check_exception_pass).
    destruct (uni_loop_dup_fails cfg src dsts Hsrc Hdup (stored w)) as [e He].
    congruence.
  - intros H. by rewrite uni_ok.
Qed.

Lemma uni_succeeds_iff_nodup_witness :
  (map_uni cfg_default "lab-except/1" ["D"; "E"] (on_disk ∅)).1 = inr tt.
Proof.
  apply (uni_succeeds_iff_nodup cfg_default (on_disk ∅) "lab-except/1" ["D"; "E"]).
  - reflexivity.
  - vm_compute. reflexivity.
  - intros d _. vm_compute. reflexivity.
  - by left.
  - right. apply NoDup_cons. split; [|apply NoDup_singleton].
    intros H. apply list_elem_of_singleton in H. discriminate H.
Defined.

(** ** What the operations can raise *)

Lemma bidi_error (cfg : config) (s d : string) (m : mappings) (e : error) :
  (map_bidi_body cfg s d m).1 = inl e →
  is_port_exception e = true ∨
  (override_mapping cfg = false ∧ is_mapping_conflict e = true).
Proof.
  unfold map_bidi_body.
  destruct (check_exception_cases s m) as [[_ E]|(v & _ & _ & E)];
    [erewrite bind_ok by exact E | erewrite bind_err by exact E; intros [= <-]; by left].
  destruct (check_exception_cases d m) as [[_ E']|(v & _ & _ & E')];
    [erewrite bind_ok by exact E' | erewrite bind_err by exact E'; intros [= <-]; by left].
  destruct (check_mapping_exist_cases cfg s d m) as [E1|(a & Ho & _ & _ & E1)];
    [erewrite bind_ok by exact E1 | erewrite bind_err by exact E1; intros [= <-]; by right].
  destruct (check_mapping_exist_cases cfg d s m) as [E2|(a & Ho & _ & _ & E2)];
    [erewrite bind_ok by exact E2 | erewrite bind_err by exact E2; intros [= <-]; by right].
  discriminate.
Qed.

Lemma del_error (ks : list string) (e : error) :
  ∀ m, (del_mappings ks m).1 = inl e → is_port_exception e = true.
Proof.
  unfold del_mappings. induction ks as [|p ks IH]; intros m; [discriminate|].
  rewrite for_each_cons.
  destruct (del_step_cases p m) as [[_ E]|(s & _ & _ & E)].
  - erewrite bind_ok by exact E. apply IH.
  - erewrite bind_err by exact E. by intros [= <-].
Qed.

Lemma clear_to_error (s : string) (dsts : list string) (m : mappings) (e : error) :
  (map_clear_to_body s dsts m).1 = inl e → is_port_exception e = true.
Proof.
  unfold map_clear_to_body.
  destruct (check_exception_cases s m) as [[_ E]|(v & _ & _ & E)].
  - erewrite bind_ok by exact E. unfold bind, scan_ports. apply del_error.
  - erewrite bind_err by exact E. by intros [= <-].
Qed.

(** With the lock held, the only errors the five operations raise are the
    port exception and the mapping conflict; the conflict is raised by
    [map_bidi], [map_uni] and [map_tap] only and never when override is on;
    [map_clear] and [map_clear_to] raise nothing but the port exception. *)
Theorem errors_raised (ord : dict_order) (cfg : config) (w : world) (e : error) :
  lock_usable w = true →
  (∀ s d, (map_bidi cfg s d w).1 = inl e →
     is_port_exception e = true ∨
     (override_mapping cfg = false ∧ is_mapping_conflict e = true)) ∧
  (∀ s dsts, (map_uni cfg s dsts w).1 = inl e →
     is_port_exception e = true ∨
     (override_mapping cfg = false ∧ is_mapping_conflict e = true)) ∧
  (∀ s dsts, (map_tap cfg s dsts w).1 = inl e →
     is_port_exception e = true ∨
     (override_mapping cfg = false ∧ is_mapping_conflict e = true)) ∧
  (∀ ports, (map_clear ord cfg ports w).1 = inl e → is_port_exception e = true) ∧
  (∀ s dsts, (map_clear_to cfg s dsts w).1 = inl e → is_port_exception e = true).
Proof.
  intros Hl. unfold map_tap, map_bidi, map_uni, map_clear, map_clear_to.
  split_and!; intros *; rewrite transaction_result by done.
  - apply bidi_error.
  - apply uni_error.
  - apply uni_error.
  - unfold map_clear_body, bind, collect_ports. apply del_error.
  - apply clear_to_error.
Qed.

Lemma errors_raised_witness :
  is_port_exception (PortException "except: fiber fault") = true.
Proof.
  apply (proj1 (proj2 (proj2 (proj2
           (errors_raised default_order cfg_strict (on_disk seeded)
              (PortException "except: fiber fault") eq_refl)))) ["P1"]).
  vm_compute. reflexivity.
Defined.

(** ** [map_clear] and [map_clear_to] only remove *)

(** Whatever [_del_mappings] does to a key, it leaves it alone or removes
    it, and it removes listed keys only. *)
Lemma del_lookup (ks : list string) (k : string) :
  ∀ m, (del_mappings ks m).2 !! k = m !! k ∨
       ((del_mappings ks m).2 !! k = None ∧ k ∈ ks).
Proof.
  unfold del_mappings. induction ks as [|p ks IH]; intros m; [by left|].
  rewrite for_each_cons.
  destruct (del_step_cases p m) as [[_ E]|(s & _ & _ & E)].
  - erewrite bind_ok by exact E.
    destruct (IH (delete p m)) as [H|[H Hin]].
    + destruct (decide (k = p)) as [->|Hne].
      * right. rewrite H, lookup_delete_eq. split; [done|apply list_elem_of_here].
      * left. by rewrite H, lookup_delete_ne.
    + right. split; [done|by apply list_elem_of_further].
  - erewrite bind_err by exact E. by left.
Qed.

(** [map_clear] and [map_clear_to] never add or rewrite an entry, whether
    they return or raise: every key keeps its value or is removed.
    [map_clear] removes only entries whose key or value is a listed port;
    [map_clear_to] removes only listed destinations that hold the source. *)
Theorem clear_only_removes (ord : dict_order) (cfg : config) (w : world) :
  lock_usable w = true →
  (∀ ports, stored (map_clear ord cfg ports w).2 ⊆ stored w) ∧
  (∀ ports k, stored (map_clear ord cfg ports w).2 !! k = stored w !! k ∨
              (stored (map_clear ord cfg ports w).2 !! k = None ∧
               ∃ v, stored w !! k = Some v ∧ (k ∈ ports ∨ v ∈ ports))) ∧
  (∀ s dsts, stored (map_clear_to cfg s dsts w).2 ⊆ stored w) ∧
  (∀ s dsts k, stored (map_clear_to cfg s dsts w).2 !! k = stored w !! k ∨
               (stored (map_clear_to cfg s dsts w).2 !! k = None ∧
                k ∈ dsts ∧ stored w !! k = Some s)).
Proof.
  intros Hl.
  assert (H1 : ∀ ports k, stored (map_clear ord cfg ports w).2 !! k = stored w !! k ∨
              (stored (map_clear ord cfg ports w).2 !! k = None ∧
               ∃ v, stored w !! k = Some v ∧ (k ∈ ports ∨ v ∈ ports))).
  { intros ports k. unfold map_clear. rewrite transaction_stored by done.
    unfold map_clear_body, bind, collect_ports.
    destruct (del_lookup (flat_map (touching ord (stored w)) ports) k (stored w))
      as [H|[H Hin]]; [by left | right].
    split; [done|]. by apply elem_of_collected in Hin. }
  assert (H2 : ∀ s dsts k, stored (map_clear_to cfg s dsts w).2 !! k = stored w !! k ∨
               (stored (map_clear_to cfg s dsts w).2 !! k = None ∧
                k ∈ dsts ∧ stored w !! k = Some s)).
  { intros s dsts k. unfold map_clear_to. rewrite transaction_stored by done.
    unfold map_clear_to_body.
    destruct (check_exception_cases s (stored w)) as [[_ E]|(v & _ & _ & E)].
    - erewrite bind_ok by exact E. unfold bind, scan_ports.
      destruct (del_lookup (filter (λ d, stored w !! d = Some s) dsts) k (stored w))
        as [H|[H Hin]]; [by left | right].
      split; [done|]. apply list_elem_of_filter in Hin. tauto.
    - erewrite bind_err by exact E. by left. }
  split_and!; [|exact H1| |exact H2].
  - intros ports. apply map_subseteq_spec. intros k v Hk.
    destruct (H1 ports k) as [H|[H _]]; congruence.
  - intros s dsts. apply map_subseteq_spec. intros k v Hk.
    destruct (H2 s dsts k) as [H|[H _]]; congruence.
Qed.

Lemma clear_only_removes_witness :
  stored (map_clear default_order cfg_strict ["P1"; "A"] (on_disk seeded)).2
    ⊆ stored (on_disk seeded).
Proof.
  exact (proj1 (clear_only_removes default_order cfg_strict (on_disk seeded) eq_refl)
           ["P1"; "A"]).
Defined.

(** ** Empty argument lists *)

(** [map_clear([])] returns and changes nothing, whatever the store holds.
    [map_uni], [map_tap] and [map_clear_to] with no destination still check
    their source: they return without a change when it is not
    exception-marked and raise its stored text when it is. *)
Theorem empty_arguments (ord : dict_order) (cfg : config) (w : world) (src : string) :
  lock_usable w = true →
  ((map_clear ord cfg [] w).1 = inr tt ∧ stored (map_clear ord cfg [] w).2 = stored w) ∧
  (marked (stored w !! src) = false →
   ((map_uni cfg src [] w).1 = inr tt ∧ stored (map_uni cfg src [] w).2 = stored w) ∧
   ((map_tap cfg src [] w).1 = inr tt ∧ stored (map_tap cfg src [] w).2 = stored w) ∧
   ((map_clear_to cfg src [] w).1 = inr tt ∧
    stored (map_clear_to cfg src [] w).2 = stored w)) ∧
  (∀ v, stored w !! src = Some v → marked (Some v) = true →
   (map_uni cfg src [] w).1 = inl (PortException v) ∧
   (map_tap cfg src [] w).1 = inl (PortException v) ∧
   (map_clear_to cfg src [] w).1 = inl (PortException v)).
Proof.
  intros Hl. unfold map_tap. split; [|split].
  - by apply transaction_run.
  - intros Hs. split; [|split]; (apply transaction_run; [done|]).
    + rewrite uni_ok; [done|done|right; constructor|by intros ? ?%elem_of_nil|].
      right. by intros ? ?%elem_of_nil.
    + rewrite uni_ok; [done|done|right; constructor|by intros ? ?%elem_of_nil|].
      right. by intros ? ?%elem_of_nil.
    + rewrite clear_to_skips; [done|done|]. by intros ? ?%elem_of_nil.
  - intros v Hv Hm. split; [|split].
    + by apply blocked_uni_src.
    + by apply blocked_uni_src.
    + by apply blocked_clear_to_src.
Qed.

Lemma empty_arguments_witness :
  (map_clear default_order cfg_strict [] (on_disk seeded)).1 = inr tt ∧
  (map_uni cfg_strict "P1" [] (on_disk seeded)).1 = inl (PortException "except: fiber fault").
Proof.
  destruct (empty_arguments default_order cfg_strict (on_disk seeded) "P1" eq_refl)
    as ([H1 _] & _ & H3).
  split; [exact H1|]. apply (H3 "except: fiber fault"); vm_compute; reflexivity.
Defined.

(** ** Connecting and disconnecting again *)

Lemma clear_pair_body (ord : dict_order) (s d : string) (m : mappings) :
  m !! s = None → m !! d = None → (∀ k, m !! k ≠ Some s) →
  marked (Some s) = false → marked (Some d) = false →
  map_clear_body ord [s] (<[d:=s]> (<[s:=d]> m)) = (inr tt, m).
Proof.
  intros Hs Hd Hno Hms Hmd.
  set (m1 := <[d:=s]> (<[s:=d]> m)).
  assert (Hval : ∀ k v, m1 !! k = Some v →
            (k = d ∧ v = s) ∨ (k = s ∧ v = d) ∨ (k ≠ s ∧ k ≠ d ∧ m !! k = Some v)).
  { intros k v. unfold m1. rewrite lookup_insert_Some.
    intros [[<- <-]|[Hkd Hk]]; [by left|].
    apply lookup_insert_Some in Hk as [[<- <-]|[Hks Hk]]; [right; by left|].
    right; right. done. }
  assert (Hok : (map_clear_body ord [s] m1).1 = inr tt).
  { apply clear_ok. intros k v Hk Hin.
    destruct (Hval k v Hk) as [[_ ->]|[[_ ->]|(Hks & _ & Hm)]]; [done|done|].
    exfalso. destruct Hin as [H|H]; apply list_elem_of_singleton in H.
    - done.
    - subst v. by apply Hno in Hm. }
  destruct (map_clear_body ord [s] m1) as [r m2] eqn:E. simpl in Hok. subst r.
  f_equal. apply map_eq. intros k.
  pose proof (clear_ok_inv ord [s] m1) as Hinv. rewrite E in Hinv.
  simpl in Hinv. rewrite (Hinv eq_refl k).
  destruct (m1 !! k) as [v|] eqn:Hk; simpl.
  - destruct (Hval k v Hk) as [[-> ->]|[[-> ->]|(Hks & Hkd & Hm)]].
    + rewrite decide_True by (right; apply list_elem_of_here). done.
    + rewrite decide_True by (left; apply list_elem_of_here). done.
    + rewrite decide_False; [done|]. intros [H|H]; apply list_elem_of_singleton in H.
      * done.
      * subst v. by apply Hno in Hm.
  - symmetry. unfold m1 in Hk.
    apply lookup_insert_None in Hk as [Hk _]. by apply lookup_insert_None in Hk as [Hk _].
Qed.

Lemma all_values_of_singleton (k v : string) :
  stored (on_disk {[ "C" := "D" ]}) !! k = Some v → v = "D".
Proof.
  unfold on_disk. rewrite stored_YamlDoc. intros H.
  by apply lookup_singleton_Some in H as [_ <-].
Qed.

(** Connecting two unused ports and disconnecting either of them brings the
    stored Mapping Set back. [s] and [d] are neither keys nor values of the
    store and their addresses carry no marker; both calls succeed, under
    either override setting. *)
Theorem bidi_then_clear_restores (ord : dict_order) (cfg : config) (w : world) (s d : string) :
  lock_usable w = true →
  stored w !! s = None → stored w !! d = None →
  (∀ k, stored w !! k ≠ Some s) → (∀ k, stored w !! k ≠ Some d) →
  marked (Some s) = false → marked (Some d) = false →
  (map_bidi cfg s d w).1 = inr tt ∧
  (map_clear ord cfg [s] (map_bidi cfg s d w).2).1 = inr tt ∧
  stored (map_clear ord cfg [s] (map_bidi cfg s d w).2).2 = stored w ∧
  (map_clear ord cfg [d] (map_bidi cfg s d w).2).1 = inr tt ∧
  stored (map_clear ord cfg [d] (map_bidi cfg s d w).2).2 = stored w.
Proof.
  intros Hl Hs Hd Hns Hnd Hms Hmd.
  assert (E : map_bidi_body cfg s d (stored w) = (inr tt, <[d:=s]> (<[s:=d]> (stored w)))).
  { apply bidi_ok; [by rewrite Hs|by rewrite Hd|]. right. by rewrite Hs, Hd. }
  destruct (transaction_run _ _ _ _ Hl E) as [Hr Hst].
  fold (map_bidi cfg s d) in Hr, Hst.
  assert (Hl1 : lock_usable (map_bidi cfg s d w).2 = true).
  { unfold map_bidi. by rewrite transaction_lock. }
  split; [exact Hr|]. unfold map_clear.
  rewrite !transaction_result, !transaction_stored, !Hst by done.
  rewrite (clear_pair_body ord s d (stored w)) by done.
  replace (<[d:=s]> (<[s:=d]> (stored w))) with (<[s:=d]> (<[d:=s]> (stored w))).
  - rewrite (clear_pair_body ord d s (stored w)) by done. done.
  - destruct (decide (s = d)) as [->|Hne]; [done|]. by apply insert_insert_ne.
Qed.

Lemma bidi_then_clear_restores_witness :
  stored (map_clear default_order cfg_strict ["B"]
            (map_bidi cfg_strict "A" "B" (on_disk {[ "C" := "D" ]})).2).2
    = stored (on_disk {[ "C" := "D" ]}).
Proof.
  apply (bidi_then_clear_restores default_order cfg_strict (on_disk {[ "C" := "D" ]}) "A" "B").
  - reflexivity.
  - vm_compute. reflexivity.
  - vm_compute. reflexivity.
  - intros k H. apply all_values_of_singleton in H. discriminate H.
  - intros k H. apply all_values_of_singleton in H. discriminate H.
  - vm_compute. reflexivity.
  - vm_compute. reflexivity.
Defined.

(** Fanning a source out to unused destinations and clearing the same
    destinations from that source brings the stored Mapping Set back. No
    destination is a key of the store, the source is not exception-marked
    and its address carries no marker; both calls succeed, under either
    override setting, also when a destination is listed twice. *)
Theorem uni_then_clear_to_restores (cfg : config) (w : world) (src : string)
    (dsts : list string) :
  lock_usable w = true →
  marked (stored w !! src) = false → marked (Some src) = false →
  (∀ d, d ∈ dsts → stored w !! d = None) →
  (map_uni cfg src dsts w).1 = inr tt ∧
  (∀ d, d ∈ dsts → stored (map_uni cfg src dsts w).2 !! d = Some src) ∧
  (map_clear_to cfg src dsts (map_uni cfg src dsts w).2).1 = inr tt ∧
  stored (map_clear_to cfg src dsts (map_uni cfg src dsts w).2).2 = stored w.
Proof.
  intros Hl Hs Hsrc Hd.
  assert (E : map_uni_body cfg src dsts (stored w) = (inr tt, set_all src dsts (stored w))).
  { apply uni_ok; [done|by left| |right].
    - intros d Hin. by rewrite (Hd d Hin).
    - intros d Hin. by rewrite (Hd d Hin). }
  destruct (transaction_run _ _ _ _ Hl E) as [Hr Hst].
  fold (map_uni cfg src dsts) in Hr, Hst.
  assert (Hl1 : lock_usable (map_uni cfg src dsts w).2 = true).
  { unfold map_uni. by rewrite transaction_lock. }
  split; [exact Hr|]. split.
  { intros d Hin. by rewrite Hst, lookup_set_all, decide_True. }
  apply transaction_run; [done|]. rewrite Hst.
  rewrite clear_to_ok; [|rewrite lookup_set_all; by case_decide|done].
  f_equal. apply map_eq. intros k. rewrite lookup_delete_all.
  destruct (decide (k ∈ dsts)) as [Hin|Hnin].
  - rewrite decide_True.
    + symmetry. by apply Hd.
    + apply list_elem_of_filter. split; [|done].
      by rewrite lookup_set_all, decide_True.
  - rewrite decide_False.
    + by rewrite lookup_set_all, decide_False.
    + intros H. apply list_elem_of_filter in H as [_ H]. done.
Qed.

Lemma uni_then_clear_to_restores_witness :
  stored (map_clear_to cfg_strict "A" ["B"; "C"; "B"]
            (map_uni cfg_strict "A" ["B"; "C"; "B"] (on_disk ∅)).2).2 = stored (on_disk ∅).
Proof.
  apply (uni_then_clear_to_restores cfg_strict (on_disk ∅) "A" ["B"; "C"; "B"]).
  - reflexivity.
  - vm_compute. reflexivity.
  - vm_compute. reflexivity.
  - intros d _. vm_compute. reflexivity.
Defined.

(** After a [map_clear] that returned, the same [map_clear] again finds
    nothing to collect: it returns and changes nothing. *)
Theorem clear_twice (ord : dict_order) (cfg : config) (w : world) (ports : list string) :
  lock_usable w = true → (map_clear ord cfg ports w).1 = inr tt →
  (map_clear ord cfg ports (map_clear ord cfg ports w).2).1 = inr tt ∧
  stored (map_clear ord cfg ports (map_clear ord cfg ports w).2).2
    = stored (map_clear ord cfg ports w).2.
Proof.
  intros Hl Hok.
  assert (Hl1 : lock_usable (map_clear ord cfg ports w).2 = true).
  { unfold map_clear. by rewrite transaction_lock. }
  apply transaction_run; [done|].
  set (m1 := stored (map_clear ord cfg ports w).2).
  assert (Hnone : flat_map (touching ord m1) ports = []).
  { apply elem_of_nil_inv. intros k Hk.
    apply elem_of_collected in Hk as (v & Hk & Hv).
    unfold m1, map_clear in Hk, Hok. rewrite transaction_stored in Hk by done.
    rewrite transaction_result in Hok by done.
    rewrite (clear_ok_inv _ _ _ Hok) in Hk.
    destruct (stored w !! k) as [v'|]; [simpl in Hk|done].
    destruct (decide (k ∈ ports ∨ v' ∈ ports)) as [|Hn]; [done|].
    injection Hk as ->. done. }
  unfold map_clear_body, bind, collect_ports. by rewrite Hnone.
Qed.

Lemma clear_twice_witness :
  stored (map_clear default_order cfg_strict ["A"]
            (map_clear default_order cfg_strict ["A"]
               (on_disk {[ "B" := "A"; "C" := "A" ]})).2).2
    = stored (map_clear default_order cfg_strict ["A"]
                (on_disk {[ "B" := "A"; "C" := "A" ]})).2.
Proof.
  apply (clear_twice default_order cfg_strict (on_disk {[ "B" := "A"; "C" := "A" ]}) ["A"]).
  - reflexivity.
  - vm_compute. reflexivity.
Defined.

(** ** Override leaves the old peer behind *)

(** With override on, [map_bidi(s2, d)] on a port [d] that is connected
    both ways with [s1] succeeds and rewrites the entry of [d] only: the
    store then holds [d -> s2] and [s2 -> d], and still [s1 -> d], an entry
    whose other direction is gone. *)
Theorem override_leaves_stale_entry (cfg : config) (w : world) (d s1 s2 : string) :
  lock_usable w = true → override_mapping cfg = true →
  stored w !! d = Some s1 → stored w !! s1 = Some d →
  s1 ≠ s2 → s1 ≠ d →
  marked (Some s1) = false → marked (stored w !! s2) = false →
  (map_bidi cfg s2 d w).1 = inr tt ∧
  stored (map_bidi cfg s2 d w).2 !! d = Some s2 ∧
  stored (map_bidi cfg s2 d w).2 !! s2 = Some d ∧
  stored (map_bidi cfg s2 d w).2 !! s1 = Some d.
Proof.
  intros Hl Ho Hd Hs1 Hne Hned Hm Hs2.
  assert (E : map_bidi_body cfg s2 d (stored w) = (inr tt, <[d:=s2]> (<[s2:=d]> (stored w)))).
  { apply bidi_ok; [done|by rewrite Hd|by left]. }
  destruct (transaction_run _ _ _ _ Hl E) as [Hr Hst].
  fold (map_bidi cfg s2 d) in Hr, Hst. rewrite Hst.
  split; [exact Hr|]. split; [apply lookup_insert_eq|]. split.
  - destruct (decide (d = s2)) as [->|Hds]; [apply lookup_insert_eq|].
    rewrite lookup_insert_ne by done. apply lookup_insert_eq.
  - by rewrite !lookup_insert_ne.
Qed.

Lemma override_leaves_stale_entry_witness :
  stored (map_bidi cfg_default "C" "B" (on_disk {[ "A" := "B"; "B" := "A" ]})).2 !! "A"
    = Some "B".
Proof.
  apply (override_leaves_stale_entry cfg_default (on_disk {[ "A" := "B"; "B" := "A" ]})
           "B" "A" "C"); try (vm_compute; reflexivity); discriminate.
Defined.

(** ** Where stored values come from *)

Lemma uni_store_shape (cfg : config) (src : string) (dsts : list string) (m : mappings) :
  ∃ pre, (∀ k, k ∈ pre → k ∈ dsts) ∧
         (map_uni_body cfg src dsts m).2 = set_all src pre m.
Proof.
  unfold map_uni_body.
  destruct (check_exception_cases src m) as [[_ E]|(v & _ & _ & E)].
  - erewrite bind_ok by exact E.
    destruct (uni_loop_prefix cfg src dsts m) as [H|(pre & d & post & e & Hd & _ & H)];
      rewrite H.
    + by exists dsts.
    + exists pre. split; [|done]. intros k Hk. rewrite Hd. apply elem_of_app. by left.
  - erewrite bind_err by exact E. exists []. split; [|done].
    by intros k ?%elem_of_nil.
Qed.

(** Every value found in the store after an operation was there before
    under the same key, or is an address passed to the call: [map_bidi]
    stores each argument under the other, [map_uni] and [map_tap] store the
    source under destinations, [map_clear] and [map_clear_to] store nothing.
    So an operation whose address arguments carry no marker leaves no port
    exception-marked that was not so before. *)
Theorem values_come_from_arguments (ord : dict_order) (cfg : config) (w : world)
    (k v : string) :
  lock_usable w = true →
  (∀ s d, stored (map_bidi cfg s d w).2 !! k = Some v →
          stored w !! k = Some v ∨ (k = s ∧ v = d) ∨ (k = d ∧ v = s)) ∧
  (∀ s dsts, stored (map_uni cfg s dsts w).2 !! k = Some v →
          stored w !! k = Some v ∨ (k ∈ dsts ∧ v = s)) ∧
  (∀ s dsts, stored (map_tap cfg s dsts w).2 !! k = Some v →
          stored w !! k = Some v ∨ (k ∈ dsts ∧ v = s)) ∧
  (∀ ports, stored (map_clear ord cfg ports w).2 !! k = Some v → stored w !! k = Some v) ∧
  (∀ s dsts, stored (map_clear_to cfg s dsts w).2 !! k = Some v → stored w !! k = Some v) ∧
  (∀ s d, marked (Some s) = false → marked (Some d) = false →
          stored (map_bidi cfg s d w).2 !! k = Some v → marked (Some v) = true →
          stored w !! k = Some v) ∧
  (∀ s dsts, marked (Some s) = false →
          stored (map_uni cfg s dsts w).2 !! k = Some v → marked (Some v) = true →
          stored w !! k = Some v).
Proof.
  intros Hl.
  assert (Hb : ∀ s d, stored (map_bidi cfg s d w).2 !! k = Some v →
          stored w !! k = Some v ∨ (k = s ∧ v = d) ∨ (k = d ∧ v = s)).
  { intros s d. unfold map_bidi. rewrite transaction_stored by done.
    destruct (bidi_cases cfg s d (stored w)) as [[E _]|[e E]]; rewrite E; simpl;
      [|by left].
    rewrite lookup_insert_Some. intros [[<- <-]|[_ H]]; [right; by right|].
    apply lookup_insert_Some in H as [[<- <-]|[_ H]]; [right; by left | by left]. }
  assert (Hu : ∀ s dsts, stored (map_uni cfg s dsts w).2 !! k = Some v →
          stored w !! k = Some v ∨ (k ∈ dsts ∧ v = s)).
  { intros s dsts. unfold map_uni. rewrite transaction_stored by done.
    destruct (uni_store_shape cfg s dsts (stored w)) as (pre & Hpre & ->).
    rewrite lookup_set_all. case_decide; [|by left].
    intros [= <-]. right. split; [by apply Hpre | done]. }
  unfold map_tap. split_and!; [exact Hb|exact Hu|exact Hu| | | |].
  - intros ports. unfold map_clear. rewrite transaction_stored by done.
    unfold map_clear_body, bind, collect_ports. intros H.
    destruct (del_lookup (flat_map (touching ord (stored w)) ports) k (stored w))
      as [E|[E _]]; congruence.
  - intros s dsts. unfold map_clear_to. rewrite transaction_stored by done.
    unfold map_clear_to_body. intros H.
    destruct (check_exception_cases s (stored w)) as [[_ E]|(x & _ & _ & E)].
    + erewrite bind_ok in H by exact E. unfold bind, scan_ports in H.
      destruct (del_lookup (filter (λ d, stored w !! d = Some s) dsts) k (stored w))
        as [E'|[E' _]]; congruence.
    + by erewrite bind_err in H by exact E.
  - intros s d Hs Hd H Hm.
    destruct (Hb s d H) as [?|[[_ ->]|[_ ->]]]; [done|congruence..].
  - intros s dsts Hs H Hm.
    destruct (Hu s dsts H) as [?|[_ ->]]; [done|congruence].
Qed.

Lemma values_come_from_arguments_witness :
  stored (on_disk seeded) !! "P1" = Some "except: fiber fault".
Proof.
  apply (proj2 (proj2 (proj2 (proj2 (proj2 (proj2
           (values_come_from_arguments default_order cfg_strict (on_disk seeded)
              "P1" "except: fiber fault" eq_refl)))))) "A" ["B"; "P1"]);
    vm_compute; reflexivity.
Defined.

(** ** A lock that cannot be taken *)

Lemma transaction_with_spec {A} (body : Body A) (w : world) :
  let m0 := if lock_usable w then stored w else ∅ in
  (transaction_with body w).1 = (if lock_usable w then (body m0).1 else inl NotLocked) ∧
  file (transaction_with body w).2 = YamlDoc (body m0).2 ∧
  lock_usable (transaction_with body w).2 = lock_usable w ∧
  trace (transaction_with body w).2 =
    EvWrite (body m0).2 ::
    (if lock_usable w then match file w with NoFile => [] | _ => [EvRead] end else [])
    ++ trace w.
Proof.
  destruct w as [f [] t]; destruct f;
    unfold transaction_with, enter, enter_try, acquire, read_mappings, stored; simpl;
    rewrite ?or_empty_Some;
    match goal with |- context [body ?m] => destruct (body m) as [r m'] end;
    simpl; done.
Qed.

Lemma transaction_is_transaction_with (body : Body unit) (w : world) :
  transaction body w = transaction_with body w.
Proof. reflexivity. Qed.




(** ** [get_resource_description] *)

Lemma foldl_ports_lookup (port_address : string → string → nat → string)
    (address blade a : string) (r : port_ref) (ids : list nat) :
  ∀ ports : gmap string port_ref,
    foldl (λ acc i, <[port_address address blade i := PortRef blade i]> acc) ports ids
      !! a = Some r →
    ports !! a = Some r ∨
    ∃ i, i ∈ ids ∧ r = PortRef blade i ∧ a = port_address address blade i.
Proof.
  induction ids as [|j ids IH]; intros ports H; [by left|].
  simpl in H. apply IH in H as [H|(i & Hi & -> & ->)].
  - apply lookup_insert_Some in H as [[<- <-]|[_ H]]; [right | by left].
    exists j. split; [apply list_elem_of_here|done].
  - right. exists i. split; [by apply list_elem_of_further|done].
Qed.

(** Whatever [ports] holds under an address is a port of blade 1 or 2 with
    an id from 1 to 10, and the address is the one of that port. *)
Lemma build_ports_lookup (port_address : string → string → nat → string)
    (address a : string) (r : port_ref) :
  build_ports port_address address !! a = Some r →
  (port_blade r = "1" ∨ port_blade r = "2") ∧ (1 ≤ port_id r ≤ 10)%nat ∧
  a = port_address address (port_blade r) (port_id r).
Proof.
  unfold build_ports, add_ports, port_ids. intros H.
  apply foldl_ports_lookup in H as [H|(i & Hi & -> & ->)].
  - apply foldl_ports_lookup in H as [H|(i & Hi & -> & ->)].
    + by rewrite lookup_empty in H.
    + apply elem_of_seq in Hi. simpl. split; [by left|]. split; [lia|done].
  - apply elem_of_seq in Hi. simpl. split; [by right|]. split; [lia|done].
Qed.

(** Discovery on a held lock never raises, whatever the store holds, marked
    entries included. It reads nothing into the store and takes nothing out,
    but it does write the file: the Mapping Set is the same afterwards, and a
    file that was missing, empty or unparsable is replaced by a YAML document
    of the empty mapping. *)
Theorem description_rewrites_file (ord : dict_order)
    (port_address : string → string → nat → string) (address : string) (w : world) :
  lock_usable w = true →
  (∃ conns, (get_resource_description ord port_address address w).1 = inr conns) ∧
  stored (get_resource_description ord port_address address w).2 = stored w ∧
  file (get_resource_description ord port_address address w).2 = YamlDoc (stored w) ∧
  (∃ t, trace (get_resource_description ord port_address address w).2
          = EvWrite (stored w) :: t) ∧
  (file w = NoFile ∨ file w = EmptyFile ∨ file w = Malformed →
   file (get_resource_description ord port_address address w).2 = YamlDoc ∅).
Proof.
  intros Hl. unfold get_resource_description.
  pose proof (transaction_with_spec
    (description_body ord (build_ports port_address address)) w) as (H1 & H2 & _ & H4).
  rewrite Hl in H1, H2, H4. simpl in *. split_and!.
  - rewrite H1. eauto.
  - unfold stored at 1. rewrite H2. apply or_empty_Some.
  - exact H2.
  - rewrite H4. eauto.
  - intros Hf. rewrite H2. unfold stored. by destruct Hf as [->|[->| ->]].
Qed.

Lemma description_rewrites_file_witness :
  file (get_resource_description default_order (λ a b i, a) "" (World NoFile true [])).2
    = YamlDoc ∅.
Proof.
  apply (description_rewrites_file default_order (λ a b i, a) "" (World NoFile true []) eq_refl).
  by left.
Defined.

(** The connections discovery reports: one [add_mapping] call for every
    stored entry whose key and value are both addresses of inventory ports,
    and no other. An entry with an unknown address, such as an exception
    text, is skipped silently. Every reported pair joins ports of blade 1 or
    2 with ids from 1 to 10, and there are at most as many pairs as stored
    entries. *)
Theorem description_connections (ord : dict_order)
    (port_address : string → string → nat → string) (address : string) (w : world) :
  lock_usable w = true →
  ∃ conns,
    (get_resource_description ord port_address address w).1 = inr conns ∧
    (∀ dst_port src_port, (dst_port, src_port) ∈ conns ↔
       ∃ dst_addr src_addr,
         stored w !! dst_addr = Some src_addr ∧
         build_ports port_address address !! dst_addr = Some dst_port ∧
         build_ports port_address address !! src_addr = Some src_port) ∧
    (∀ dst_port src_port, (dst_port, src_port) ∈ conns →
       stored w !! port_address address (port_blade dst_port) (port_id dst_port)
         = Some (port_address address (port_blade src_port) (port_id src_port)) ∧
       (1 ≤ port_id dst_port ≤ 10)%nat ∧ (1 ≤ port_id src_port ≤ 10)%nat) ∧
    (length conns ≤ size (stored w))%nat.
Proof.
  intros Hl. unfold get_resource_description.
  pose proof (transaction_with_spec
    (description_body ord (build_ports port_address address)) w) as (H1 & _).
  rewrite Hl in H1. simpl in H1.
  set (ports := build_ports port_address address) in *.
  exists (omap (connect_entry ports) (items ord (stored w))).
  assert (Hiff : ∀ dp sp, (dp, sp) ∈ omap (connect_entry ports) (items ord (stored w)) ↔
       ∃ da sa, stored w !! da = Some sa ∧ ports !! da = Some dp ∧ ports !! sa = Some sp).
  { intros dp sp. rewrite list_elem_of_omap. split.
    - intros ([da sa] & Hin & Hc). apply elem_of_items in Hin.
      exists da, sa. unfold connect_entry in Hc. simpl in Hc.
      destruct (ports !! sa) as [s'|]; [|done].
      destruct (ports !! da) as [d'|]; [|done]. by injection Hc as -> ->.
    - intros (da & sa & Hst & Hd & Hs). exists (da, sa).
      split; [by apply elem_of_items|].
      unfold connect_entry. simpl. by rewrite Hs, Hd. }
  split_and!; [exact H1|exact Hiff| |].
  - intros dp sp Hin. apply Hiff in Hin as (da & sa & Hst & Hd & Hs).
    apply build_ports_lookup in Hd as (_ & Hd1 & ->).
    apply build_ports_lookup in Hs as (_ & Hs1 & ->). done.
  - rewrite <-length_map_to_list, <-(items_perm ord (stored w)).
    generalize (items ord (stored w)). intros l.
    induction l as [|x l IH]; csimpl; [done|].
    destruct (connect_entry ports x); csimpl; lia.
Qed.

Lemma description_connections_witness :
  ∃ conns,
    (get_resource_description default_order (λ a b i, a +:+ "/" +:+ b) "sw"
       (on_disk seeded)).1 = inr conns ∧
    (length conns ≤ size (stored (on_disk seeded)))%nat.
Proof.
  destruct (description_connections default_order (λ a b i, a +:+ "/" +:+ b) "sw"
              (on_disk seeded) eq_refl) as (conns & H1 & _ & _ & H4).
  exists conns. split; [exact H1 | exact H4].
Defined.

(** ** [login]: the name of the mapping file *)

Lemma length_app_string (s t : string) :
  String.length (s +:+ t) = (String.length s + String.length t)%nat.
Proof. induction s as [|c s IH]; [done|]. rewrite append_cons. simpl. by rewrite IH. Qed.

Lemma app_inj_r (s1 s2 t : string) : s1 +:+ t = s2 +:+ t → s1 = s2.
Proof.
  revert s2. induction s1 as [|c s1 IH]; intros [|c' s2] H.
  - done.
  - apply (f_equal String.length) in H.
    rewrite append_nil, append_cons in H. simpl in H.
    rewrite length_app_string in H. lia.
  - apply (f_equal String.length) in H.
    rewrite append_nil, append_cons in H. simpl in H.
    rewrite length_app_string in H. lia.
  - rewrite !append_cons in H. injection H as -> H. f_equal. by apply IH.
Qed.

Lemma replace_char_fresh (old new : ascii) (s : string) :
  old ≠ new → has_char old (replace_char old new s) = false.
Proof.
  intros Hne. induction s as [|c s IH]; [done|]. simpl. rewrite IH, orb_false_r.
  destruct (Ascii.eqb c old) eqn:E.
  - apply Ascii.eqb_neq. congruence.
  - exact E.
Qed.

Lemma replace_char_id (old new : ascii) (s : string) :
  has_char old s = false → replace_char old new s = s.
Proof.
  induction s as [|c s IH]; [done|]. simpl. intros H.
  apply orb_false_iff in H as [H1 H2]. by rewrite H1, IH.
Qed.

Lemma replace_char_inj (old new : ascii) (s t : string) :
  has_char new s = false → has_char new t = false →
  replace_char old new s = replace_char old new t → s = t.
Proof.
  revert t. induction s as [|c s IH]; intros [|c' t] Hs Ht H; simpl in *; try done.
  apply orb_false_iff in Hs as [Hs1 Hs2]. apply orb_false_iff in Ht as [Ht1 Ht2].
  injection H as Hc H. f_equal; [|by apply IH].
  apply Ascii.eqb_neq in Hs1, Ht1.
  destruct (Ascii.eqb c old) eqn:E; destruct (Ascii.eqb c' old) eqn:E'.
  - apply Ascii.eqb_eq in E, E'. congruence.
  - congruence.
  - congruence.
  - exact Hc.
Qed.

(** The file name [login] derives from an address: dots become dashes and
    ["-mappings.yaml"] is appended. It holds no dot before that suffix and is
    as long as the address plus the suffix. Two addresses get the same file
    exactly when they agree after the replacement: addresses without a dash
    get distinct files, while an address and its dashed form share one (as
    ["10.0.0.1"] and ["10-0-0-1"] do). *)
Theorem mapping_file_name_collisions (a b : string) :
  (∃ stem, mapping_file_name a = stem +:+ "-mappings.yaml" ∧
           has_char "." stem = false ∧ String.length stem = String.length a) ∧
  (mapping_file_name a = mapping_file_name b ↔
   replace_char "." "-" a = replace_char "." "-" b) ∧
  (has_char "-" a = false → has_char "-" b = false →
   mapping_file_name a = mapping_file_name b → a = b) ∧
  mapping_file_name (replace_char "." "-" a) = mapping_file_name a ∧
  (has_char "." a = true → replace_char "." "-" a ≠ a).
Proof.
  unfold mapping_file_name, MAPPINGS_FILE_TEMPLATE. split_and!.
  - exists (replace_char "." "-" a). split; [done|]. split.
    + by apply replace_char_fresh.
    + induction a as [|c a IH]; [done|]. simpl. by rewrite IH.
  - split; [apply app_inj_r | by intros ->].
  - intros Ha Hb H. apply app_inj_r in H. by eapply replace_char_inj.
  - rewrite (replace_char_id "." "-" (replace_char "." "-" a)); [done|].
    by apply replace_char_fresh.
  - intros Hdot Heq.
    rewrite <-Heq, replace_char_fresh in Hdot; done.
Qed.

Lemma mapping_file_name_collisions_witness :
  mapping_file_name "10.0.0.1" = mapping_file_name "10-0-0-1" ∧
  replace_char "." "-" "10.0.0.1" ≠ "10.0.0.1".
Proof.
  split.
  - apply (proj1 (proj2 (mapping_file_name_collisions "10.0.0.1" "10-0-0-1"))).
    vm_compute. reflexivity.
  - apply (proj2 (proj2 (proj2 (proj2 (mapping_file_name_collisions "10.0.0.1" ""))))).
    vm_compute. reflexivity.
Defined.

(** ** [entities.TestPort] *)

Lemma run_setter_appends (p : test_port) (c : setter_call) :
  ∃ added, attributes (run_setter p c) = (attributes p ++ added)%list ∧
           length added = (if effective c then 1 else 0)%nat ∧
           (∀ n v, NumericAttribute n v ∈ added → v ≠ "").
Proof.
  destruct c as [[v|]|[v|]|[v|]]; unfold run_setter, set_protocol, set_protocol_type,
    set_speed, append_attribute, effective; simpl;
    try (exists []; rewrite app_nil_r; split_and!; [done|done|by intros ? ? ?%elem_of_nil]);
    (destruct (Str.nonempty v) eqn:E;
      [eexists [_]; split_and!; [done|done|];
       intros n v' H; apply list_elem_of_singleton in H; injection H as _ ->;
       by apply nonempty_ne
      |exists []; rewrite app_nil_r; split_and!; [done|done|by intros ? ? ?%elem_of_nil]]).
Qed.

(** The setters of [TestPort] only ever append. After any sequence of calls
    the attributes are the old ones, in their order, followed by one
    attribute for every call whose value was neither [None] nor empty; no
    attribute is replaced, so setting a speed twice leaves two ["Speed"]
    attributes, and no attribute with an empty value is ever added. *)
Theorem setters_only_append (p : test_port) (calls : list setter_call) :
  (∃ added,
     attributes (foldl run_setter p calls) = (attributes p ++ added)%list ∧
     length added = length (filter (λ c, effective c = true) calls) ∧
     (∀ n v, NumericAttribute n v ∈ added → v ≠ "")) ∧
  (∀ v1 v2, v1 ≠ "" → v2 ≠ "" →
     attributes (set_speed (Some v2) (set_speed (Some v1) p))
       = (attributes p ++ [NumericAttribute "Speed" v1; NumericAttribute "Speed" v2])%list) ∧
  set_protocol None p = p ∧ set_protocol (Some "") p = p.
Proof.
  split; [|split; [|done]].
  - revert p. induction calls as [|c calls IH]; intros p.
    + exists []. rewrite app_nil_r. split_and!; [done|done|by intros ? ? ?%elem_of_nil].
    + simpl. destruct (run_setter_appends p c) as (a1 & E1 & L1 & V1).
      destruct (IH (run_setter p c)) as (a2 & E2 & L2 & V2).
      exists (a1 ++ a2)%list. split_and!.
      * by rewrite E2, E1, app_assoc.
      * rewrite length_app, L1, L2, filter_cons.
        destruct (effective c); [rewrite decide_True by done|rewrite decide_False by done];
          done.
      * intros n v H. apply elem_of_app in H as [H|H]; eauto.
  - intros v1 v2 H1 H2. apply nonempty_ne in H1, H2.
    unfold set_speed, append_attribute. rewrite H1. simpl. rewrite H2. simpl.
    by rewrite <-app_assoc.
Qed.

Lemma setters_only_append_witness :
  attributes (set_speed (Some "5") (set_speed (Some "4") (TestPort [])))
    = [NumericAttribute "Speed" "4"; NumericAttribute "Speed" "5"].
Proof.
  apply (proj1 (proj2 (setters_only_append (TestPort []) [])) "4" "5"); discriminate.
Defined.

(** ** The [with] block writes whatever happens *)

(** With the lock held, a transaction reads the file at most once (not at
    all when it is missing) and writes it exactly once, with the dictionary
    as the body left it, whether the body returned or raised; what the body
    returned or raised is the outcome of the whole block. *)
Theorem transaction_always_writes (body : Body unit) (w : world) :
  lock_usable w = true →
  (transaction body w).1 = (body (stored w)).1 ∧
  file (transaction body w).2 = YamlDoc (body (stored w)).2 ∧
  trace (transaction body w).2 =
    EvWrite (body (stored w)).2 ::
    match file w with NoFile => [] | _ => [EvRead] end ++ trace w.
Proof.
  intros Hl. rewrite transaction_is_transaction_with.
  pose proof (transaction_with_spec body w) as (H1 & H2 & _ & H4).
  rewrite Hl in H1, H2, H4. done.
Qed.

Lemma transaction_always_writes_witness :
  file (map_bidi cfg_strict "S2" "D" (World NoFile true [])).2
    = YamlDoc (<["D":="S2"]> {[ "S2" := "D" ]}) ∧
  trace (map_clear_to cfg_strict "P1" [] (on_disk seeded)).2 = [EvWrite seeded; EvRead].
Proof.
  split.
  - unfold map_bidi.
    rewrite (proj1 (proj2 (transaction_always_writes
               (map_bidi_body cfg_strict "S2" "D") (World NoFile true []) eq_refl))).
    vm_compute. reflexivity.
  - unfold map_clear_to, on_disk.
    rewrite (proj2 (proj2 (transaction_always_writes
               (map_clear_to_body "P1" []) (World (YamlDoc seeded) true []) eq_refl))).
    vm_compute. reflexivity.
Defined.

(** ** Repeating and half-clearing *)

Lemma set_all_twice (src : string) (dsts : list string) (m : mappings) :
  set_all src dsts (set_all src dsts m) = set_all src dsts m.
Proof.
  apply map_eq. intros k. rewrite !lookup_set_all. by case_decide.
Qed.

Lemma uni_ok_inv (cfg : config) (src : string) (dsts : list string) (m : mappings) :
  (map_uni_body cfg src dsts m).1 = inr tt →
  marked (m !! src) = false ∧ (map_uni_body cfg src dsts m).2 = set_all src dsts m.
Proof.
  unfold map_uni_body.
  destruct (check_exception_cases src m) as [[Hs E]|(v & _ & _ & E)].
  - erewrite bind_ok by exact E.
    destruct (uni_loop_prefix cfg src dsts m) as [H|(pre & d & post & e & _ & _ & H)];
      rewrite H; [done|discriminate].
  - erewrite bind_err by exact E. discriminate.
Qed.

(** A [map_uni] that succeeded can be issued again when the address of the
    source carries no marker: the second call succeeds and changes
    nothing, under either override setting. *)
Theorem uni_twice (cfg : config) (w : world) (src : string) (dsts : list string) :
  lock_usable w = true → marked (Some src) = false →
  (map_uni cfg src dsts w).1 = inr tt →
  (map_uni cfg src dsts (map_uni cfg src dsts w).2).1 = inr tt ∧
  stored (map_uni cfg src dsts (map_uni cfg src dsts w).2).2
    = stored (map_uni cfg src dsts w).2.
Proof.
  intros Hl Hsrc Hok.
  assert (Hl1 : lock_usable (map_uni cfg src dsts w).2 = true).
  { unfold map_uni. by rewrite transaction_lock. }
  assert (Hst : stored (map_uni cfg src dsts w).2 = set_all src dsts (stored w) ∧
                marked (stored w !! src) = false).
  { unfold map_uni in *. rewrite transaction_stored by done.
    rewrite transaction_result in Hok by done.
    by destruct (uni_ok_inv cfg src dsts (stored w) Hok). }
  destruct Hst as [Hst Hs].
  apply transaction_run; [done|]. rewrite Hst.
  rewrite uni_ok, set_all_twice; [done| |by left| |right].
  - rewrite lookup_set_all. by case_decide.
  - intros d Hin. by rewrite lookup_set_all, decide_True.
  - intros d Hin. rewrite lookup_set_all, decide_True by done. apply conflicting_same.
Qed.

Lemma uni_twice_witness :
  stored (map_uni cfg_strict "A" ["B"; "C"] (map_uni cfg_strict "A" ["B"; "C"] (on_disk ∅)).2).2
    = stored (map_uni cfg_strict "A" ["B"; "C"] (on_disk ∅)).2.
Proof.
  apply (uni_twice cfg_strict (on_disk ∅) "A" ["B"; "C"]); vm_compute; reflexivity.
Defined.

(** [map_clear_to(a, [b])] on a pair connected both ways removes the entry
    of [b] only: it succeeds and the store still holds [a -> b], while
    [map_clear] of either port removes both entries. *)
Theorem clear_to_leaves_half (ord : dict_order) (cfg : config) (w : world) (a b : string) :
  lock_usable w = true →
  stored w !! a = Some b → stored w !! b = Some a → a ≠ b →
  marked (Some a) = false → marked (Some b) = false →
  ((map_clear_to cfg a [b] w).1 = inr tt ∧
   stored (map_clear_to cfg a [b] w).2 !! b = None ∧
   stored (map_clear_to cfg a [b] w).2 !! a = Some b) ∧
  ((map_clear ord cfg [a] w).1 = inr tt ∧
   stored (map_clear ord cfg [a] w).2 !! a = None ∧
   stored (map_clear ord cfg [a] w).2 !! b = None).
Proof.
  intros Hl Ha Hb Hne Hma Hmb. split.
  - unfold map_clear_to. rewrite transaction_result, transaction_stored by done.
    rewrite clear_to_ok; [|by rewrite Ha|done]. simpl.
    rewrite !lookup_delete_all. split; [done|]. split.
    + rewrite decide_True; [done|]. apply list_elem_of_filter.
      split; [done|apply list_elem_of_here].
    + rewrite decide_False; [done|]. intros H.
      apply list_elem_of_filter in H as [_ H]. by apply list_elem_of_singleton in H.
  - unfold map_clear. rewrite transaction_result, transaction_stored by done.
    assert (Hok : (map_clear_body ord [a] (stored w)).1 = inr tt).
    { apply clear_ok. intros k v Hk [H|H]; apply list_elem_of_singleton in H; subst.
      - rewrite Ha in Hk. by injection Hk as <-.
      - done. }
    split; [done|]. rewrite !(clear_ok_inv _ _ _ Hok), Ha, Hb. simpl.
    rewrite !decide_True; [done| |]; [right|left]; apply list_elem_of_here.
Qed.

Lemma clear_to_leaves_half_witness :
  stored (map_clear_to cfg_strict "A" ["B"] (on_disk {[ "A" := "B"; "B" := "A" ]})).2 !! "A"
    = Some "B".
Proof.
  apply (clear_to_leaves_half default_order cfg_strict
           (on_disk {[ "A" := "B"; "B" := "A" ]}) "A" "B");
    try (vm_compute; reflexivity); discriminate.
Defined.
